(** * The JIT operator registry of torch/csrc/jit/operator.cpp

    A shallow embedding of the operator registry (registration, flush on
    read, the four lookups) and of [canonicalSchemaString], followed by the
    properties of the registry that its description states. *)

From Stdlib Require Import ZArith Sorting.Sorted.
From stdpp Require Import base list gmap strings.

(** ** Strings *)

(** [is_prefix p s]: the characters of [p] are the first characters of
    [s]. *)
Fixpoint is_prefix (p s : string) : bool :=
  match p, s with
  | EmptyString, _ => true
  | String a p', String b s' => bool_decide (a = b) && is_prefix p' s'
  | String _ _, EmptyString => false
  end.

(** [occurs p s]: [p] is a substring of [s]. *)
Fixpoint occurs (p s : string) : bool :=
  is_prefix p s ||
  match s with
  | EmptyString => false
  | String _ s' => occurs p s'
  end.

(** ** Schemas and operators

    [FunctionSchema], [Argument] and [Operator] are declared in headers
    outside this file; the records below carry the members that
    operator.cpp reads. *)

(** A type is used only through [type()->str()]. *)
Record TypePtr := { str : string }.

Record Argument := {
  arg_name : string;
  type : TypePtr;
  kwarg_only : bool;
}.

Record FunctionSchema := {
  name : string;
  overload_name : string;
  arguments : list Argument;
  returns : list Argument;
  is_varret : bool;
}.

(** Modelled from the spec: the enumeration [AliasAnalysisKind] is declared
    outside operator.cpp; the policies are the three that the description
    of the data model names. *)
Inductive AliasAnalysisKind :=
  | INTERNAL_SPECIAL_CASE
  | CONSERVATIVE
  | FROM_SCHEMA.

#[global] Instance AliasAnalysisKind_eq_dec : EqDecision AliasAnalysisKind.
Proof. solve_decision. Defined.

Record Operator := {
  schema : FunctionSchema;
  aliasAnalysisKind : AliasAnalysisKind;
}.

(** ** canonicalSchemaString *)

(** The loop over [schema.arguments()]: [i] is the loop index,
    [seen_kwarg_only] the flag and [out] the stream written so far. *)
Fixpoint arguments_loop (args : list Argument) (i : nat)
    (seen_kwarg_only : bool) (out : string) : string :=
  match args with
  | [] => out
  | arg :: rest =>
      let out := if bool_decide (0 < i) then out +:+ ", " else out in
      let star := kwarg_only arg && negb seen_kwarg_only in
      let out := if star then out +:+ "*, " else out in
      let seen_kwarg_only := if star then true else seen_kwarg_only in
      let out := ((out +:+ str (type arg)) +:+ " ") +:+ arg_name arg in
      arguments_loop rest (S i) seen_kwarg_only out
  end.

(** The loop over [schema.returns()] of the branch for several returns. *)
Fixpoint returns_loop (rets : list Argument) (i : nat) (out : string) : string :=
  match rets with
  | [] => out
  | ret :: rest =>
      let out := if bool_decide (0 < i) then out +:+ ", " else out in
      let out := out +:+ str (type ret) in
      returns_loop rest (S i) out
  end.

Definition canonicalSchemaString (schema : FunctionSchema) : string :=
  let out := "" in
  let out := out +:+ name schema in
  let out := out +:+ "(" in
  let out := arguments_loop (arguments schema) 0 false out in
  let out := out +:+ ") -> " in
  let out :=
    match returns schema with
    | [ret] => out +:+ str (type ret)
    | _ :: _ :: _ => (returns_loop (returns schema) 0 (out +:+ "(")) +:+ ")"
    | [] => out
    end in
  out.

(** *** The format of the canonical string, as the description words it *)

Fixpoint join (sep : string) (parts : list string) : string :=
  match parts with
  | [] => ""
  | [p] => p
  | p :: rest => p +:+ sep +:+ join sep rest
  end.

Definition argument_entry (a : Argument) : string :=
  str (type a) +:+ " " +:+ arg_name a.

(** The entries of the argument list: every argument is "type name"; the
    first keyword-only argument has the marker in front of it. *)
Fixpoint argument_entries (args : list Argument) : list string :=
  match args with
  | [] => []
  | a :: rest =>
      if kwarg_only a
      then ("*, " +:+ argument_entry a) :: map argument_entry rest
      else argument_entry a :: argument_entries rest
  end.

Definition returns_format (rets : list Argument) : string :=
  match rets with
  | [] => ""
  | [ret] => str (type ret)
  | _ => "(" +:+ join ", " (map (fun ret => str (type ret)) rets) +:+ ")"
  end.

Definition canonical_format (schema : FunctionSchema) : string :=
  name schema +:+ "(" +:+ join ", " (argument_entries (arguments schema))
    +:+ ") -> " +:+ returns_format (returns schema).

(** The entries that the loop still has to write, given its flag. *)
Definition pending_entries (seen_kwarg_only : bool) (args : list Argument)
    : list string :=
  if seen_kwarg_only then map argument_entry args else argument_entries args.

Definition separator (i : nat) : string :=
  if bool_decide (0 < i) then ", " else "".

(** The example schema of the description. *)
Definition Tensor : TypePtr := {| str := "Tensor" |}.
Definition Scalar : TypePtr := {| str := "Scalar" |}.

Definition positional (t : TypePtr) (n : string) : Argument :=
  {| arg_name := n; type := t; kwarg_only := false |}.
Definition keyword (t : TypePtr) (n : string) : Argument :=
  {| arg_name := n; type := t; kwarg_only := true |}.

Definition aten_add_Tensor : FunctionSchema :=
  {| name := "aten::add"; overload_name := "";
     arguments := [positional Tensor "self"; positional Tensor "other"];
     returns := [positional Tensor ""]; is_varret := false |}.

Definition aten_add_Scalar : FunctionSchema :=
  {| name := "aten::add"; overload_name := "Scalar";
     arguments := [positional Tensor "self"; positional Scalar "other"];
     returns := [positional Tensor ""]; is_varret := false |}.

(** ** Collaborators

    Declared in headers outside operator.cpp and taken as parameters:
    the interned [Symbol] with its conversions, the schema parser, and the
    bounded edit distance.  A named symbol constant such as
    [prim::Constant] is [fromQualString "prim::Constant"].  The
    conversions are total functions: the names given to them are taken to
    be qualified names. *)

Definition Err := string.

Class Collaborators := {
  Symbol : Type;
  Symbol_eq_dec :: EqDecision Symbol;
  fromQualString : string -> Symbol;
  toQualString : Symbol -> string;
  ns : Symbol -> Symbol;
  (** [parseSchema] either throws or returns the schema. *)
  parseSchema : string -> Err + FunctionSchema;
  (** [ComputeEditDistance word1 word2 maxEditDistance], a [size_t]. *)
  ComputeEditDistance : string -> string -> N -> N;
}.

(** ** Shared pointers, C strings and the exception monad *)

(** A [std::shared_ptr<Operator>]: the identity of the object that
    [make_shared] created, and the object, which is never mutated.  Two
    pointers are reference-equal when they are equal. *)
Record OpPtr := { object_id : nat; get : Operator }.

#[global] Instance TypePtr_eq_dec : EqDecision TypePtr.
Proof. solve_decision. Defined.
#[global] Instance Argument_eq_dec : EqDecision Argument.
Proof. solve_decision. Defined.
#[global] Instance FunctionSchema_eq_dec : EqDecision FunctionSchema.
Proof. solve_decision. Defined.
#[global] Instance Operator_eq_dec : EqDecision Operator.
Proof. solve_decision. Defined.
#[global] Instance OpPtr_eq_dec : EqDecision OpPtr.
Proof. solve_decision. Defined.

(** A [const char*]: the address, and the characters found there when the
    call is made. *)
Record CharPtr := { address : N; chars : string }.

#[global] Instance CharPtr_eq_dec : EqDecision CharPtr.
Proof. solve_decision. Defined.

(** Calls to collaborators that a run makes, in order. *)
Inductive Event :=
  | call_parseSchema (text : string).

(** The outcome of running an operation on a state: the collaborator
    calls made, the value returned or the exception thrown, and the state
    left behind. *)
Record Outcome (St A : Type) := MkOutcome {
  calls : list Event;
  result : Err + A;
  final : St;
}.
Arguments MkOutcome {St A} _ _ _.
Arguments calls {St A} _.
Arguments result {St A} _.
Arguments final {St A} _.

Definition M (St A : Type) : Type := St -> Outcome St A.

#[global] Instance M_ret {St} : MRet (M St) :=
  fun A a st => MkOutcome [] (inr a) st.

#[global] Instance M_bind {St} : MBind (M St) :=
  fun A B k m st =>
    let o := m st in
    match result o with
    | inl e => MkOutcome (calls o) (inl e) (final o)
    | inr a =>
        let o' := k a (final o) in
        MkOutcome (calls o ++ calls o') (result o') (final o')
    end.

Definition throw {St A} (e : Err) : M St A :=
  fun st => MkOutcome [] (inl e) st.

Definition gets {St A} (f : St -> A) : M St A :=
  fun st => MkOutcome [] (inr (f st)) st.

Definition modify {St} (f : St -> St) : M St unit :=
  fun st => MkOutcome [] (inr tt) (f st).

(** Calling a collaborator that may throw, recording the call. *)
Definition call {St A} (ev : Event) (r : Err + A) : M St A :=
  fun st => MkOutcome [ev] r st.

(** ** std::priority_queue

    [std::priority_queue<T, std::vector<T>, Compare>] keeps its vector a
    binary heap with [std::push_heap] and [std::pop_heap].  The vector is
    a list, an iterator an index into it; the two heap algorithms are the
    hole-moving ones of libstdc++'s <bits/stl_heap.h>.  Each loop carries
    a bound on its remaining iterations as its first argument. *)

Module priority_queue.
Section heap.
Context {T : Type} (comp : T -> T -> bool).

(** [__push_heap(first, holeIndex, topIndex, value, comp)] *)
Fixpoint push_heap_loop (bound : nat) (first : list T)
    (holeIndex topIndex : nat) (value : T) : list T :=
  let parent := (holeIndex - 1) / 2 in
  match bound, first !! parent with
  | S bound, Some at_parent =>
      if bool_decide (topIndex < holeIndex) && comp at_parent value
      then push_heap_loop bound (<[holeIndex := at_parent]> first)
             parent topIndex value
      else <[holeIndex := value]> first
  | _, _ => <[holeIndex := value]> first
  end.

Definition push_heap_aux (first : list T) (holeIndex topIndex : nat)
    (value : T) : list T :=
  push_heap_loop holeIndex first holeIndex topIndex value.

(** [std::push_heap(first, last, comp)] on the whole vector. *)
Definition push_heap (c : list T) : list T :=
  match last c with
  | Some value => push_heap_aux c (length c - 1) 0 value
  | None => c
  end.

(** The [while] loop of [__adjust_heap]; [holeIndex] and [secondChild]
    are equal whenever its condition is tested. *)
Fixpoint adjust_heap_loop (bound : nat) (first : list T)
    (holeIndex secondChild len : nat) : list T * nat * nat :=
  match bound with
  | S bound =>
      if bool_decide (secondChild < (len - 1) / 2) then
        let secondChild := 2 * (secondChild + 1) in
        match first !! secondChild, first !! (secondChild - 1) with
        | Some at_second, Some at_before =>
            let secondChild :=
              if comp at_second at_before
              then secondChild - 1 else secondChild in
            match first !! secondChild with
            | Some child =>
                adjust_heap_loop bound (<[holeIndex := child]> first)
                  secondChild secondChild len
            | None => (first, holeIndex, secondChild)
            end
        | _, _ => (first, holeIndex, secondChild)
        end
      else (first, holeIndex, secondChild)
  | 0 => (first, holeIndex, secondChild)
  end.

(** [__adjust_heap(first, holeIndex, len, value, comp)] *)
Definition adjust_heap (first : list T) (holeIndex len : nat) (value : T)
    : list T :=
  let topIndex := holeIndex in
  let '(first, holeIndex, secondChild) :=
    adjust_heap_loop len first holeIndex holeIndex len in
  let '(first, holeIndex) :=
    if bool_decide (len mod 2 = 0) && bool_decide (secondChild = (len - 2) / 2)
    then
      let secondChild := 2 * (secondChild + 1) in
      match first !! (secondChild - 1) with
      | Some child => (<[holeIndex := child]> first, secondChild - 1)
      | None => (first, holeIndex)
      end
    else (first, holeIndex) in
  push_heap_aux first holeIndex topIndex value.

(** [std::pop_heap(first, last, comp)] on the whole vector: when it has
    more than one element, the last one is saved, the first one is
    written over it, and the heap of the others is adjusted. *)
Definition pop_heap (c : list T) : list T :=
  if bool_decide (1 < length c) then
    let last_ix := length c - 1 in
    match c !! last_ix, c !! 0 with
    | Some value, Some front =>
        adjust_heap (<[last_ix := front]> c) 0 last_ix value
    | _, _ => c
    end
  else c.

Definition emplace (x : T) (c : list T) : list T := push_heap (c ++ [x]).
Definition top (c : list T) : option T := c !! 0.
Definition pop (c : list T) : list T :=
  let c := pop_heap c in take (length c - 1) c.

(** [while (!q.empty()) { ret.push_back(f(q.top())); q.pop(); }] *)
Fixpoint drain_loop {R} (f : T -> R) (bound : nat) (c : list T)
    (ret : list R) : list R :=
  match bound, top c with
  | S bound, Some t => drain_loop f bound (pop c) (ret ++ [f t])
  | _, _ => ret
  end.

Definition drain {R} (f : T -> R) (c : list T) : list R :=
  drain_loop f (length c) c [].
End heap.

(** The order of a heap whose comparison is "greater" on a key: no
  element is smaller than its parent. *)
Section heap_order.
Context {T : Type} (key : T -> Z).

Implicit Types (c : list T) (i n hole : nat).

(** The element at [i] is not smaller than its parent. *)
Definition ordered_at c i : Prop :=
  forall x y, c !! i = Some x -> c !! ((i - 1) / 2) = Some y ->
    (key y <= key x)%Z.

(** The first [n] elements form a heap. *)
Definition heap_upto n c : Prop := forall i, 0 < i < n -> ordered_at c i.

(** While [__push_heap] moves the hole up: the vector with the value
    in the hole is a heap except between the hole and its parent. *)
Definition swim_inv n c hole : Prop :=
  (forall i, 0 < i < n -> i <> hole -> ordered_at c i) /\
  (forall j x y, 0 < hole -> 0 < j < n -> (j - 1) / 2 = hole ->
     c !! j = Some x -> c !! ((hole - 1) / 2) = Some y ->
     (key y <= key x)%Z).

(** While [__adjust_heap] moves the hole down: the vector is a heap
    except at the hole, whose content does not count. *)
Definition sink_inv n c hole : Prop :=
  (forall i, 0 < i < n -> i <> hole -> (i - 1) / 2 <> hole ->
     ordered_at c i) /\
  (forall j x y, 0 < hole -> 0 < j < n -> (j - 1) / 2 = hole ->
     c !! j = Some x -> c !! ((hole - 1) / 2) = Some y ->
     (key y <= key x)%Z).

Definition ascending (l : list T) : Prop :=
  StronglySorted (fun a b => (key a <= key b)%Z) l.
End heap_order.

(** Names for four entries. *)
Inductive four := first_in | second_in | third_in | fourth_in.

Definition nth_tied {T : Type} (a b c d : T) (i : four) : T :=
  match i with
  | first_in => a | second_in => b | third_in => c | fourth_in => d
  end.
End priority_queue.

(** ** struct OperatorRegistry

    Every method takes the lock for its whole body, so a method is one
    atomic transition of the registry. *)

Module OperatorRegistry.
Section registry.
Context `{Collaborators}.

(** [std::unordered_map<Symbol, std::vector<std::shared_ptr<Operator>>>]:
    the buckets in the order in which the map is iterated.  C++ leaves
    that order open; here a new key goes to the end.  The properties of
    the loops over the map are proved for every list of buckets, and so
    for every iteration order. *)
Definition OperatorMap : Type := list (Symbol * list OpPtr).

Record t := Mk {
  (** objects created by [make_shared] so far; the next [object_id] *)
  allocated : nat;
  to_register : list OpPtr;
  operators : OperatorMap;
  operators_by_sig : gmap string OpPtr;
  operators_by_sig_literal : gmap N OpPtr;
}.

(** The registry before anything is registered. *)
Definition empty : t :=
  {| allocated := 0; to_register := []; operators := [];
     operators_by_sig := ∅; operators_by_sig_literal := ∅ |}.

(** [operators.find(name)] *)
Fixpoint find (name : Symbol) (m : OperatorMap) : option (list OpPtr) :=
  match m with
  | [] => None
  | (sym, ops) :: rest =>
      if decide (sym = name) then Some ops else find name rest
  end.

(** The vector that [find] reaches, or an empty one. *)
Definition bucket (name : Symbol) (m : OperatorMap) : list OpPtr :=
  default [] (find name m).

(** The symbol under which an operator is indexed. *)
Definition symbol_of (op : OpPtr) : Symbol :=
  fromQualString (name (schema (get op))).

Definition symbol_is (sym name : Symbol) : Prop := sym = name.

#[global] Instance symbol_is_dec sym name : Decision (symbol_is sym name).
Proof. unfold symbol_is. apply _. Defined.

(** [operators[sym].push_back(op)]: [operator[]] inserts an empty vector
    under a key that is not yet in the map. *)
Fixpoint push_back_at (sym : Symbol) (op : OpPtr) (m : OperatorMap)
    : OperatorMap :=
  match m with
  | [] => [(sym, [op])]
  | (k, ops) :: rest =>
      if decide (k = sym) then (k, ops ++ [op]) :: rest
      else (k, ops) :: push_back_at sym op rest
  end.

(** The body of the loop of [registerPendingOperators]. *)
Definition index_operator (r : t) (op : OpPtr) : t :=
  let sym := fromQualString (name (schema (get op))) in
  {| allocated := allocated r;
     to_register := to_register r;
     operators := push_back_at sym op (operators r);
     operators_by_sig :=
       <[canonicalSchemaString (schema (get op)) := op]> (operators_by_sig r);
     operators_by_sig_literal := operators_by_sig_literal r |}.

Definition flush (r : t) : t :=
  let r' := foldl index_operator r (to_register r) in
  {| allocated := allocated r';
     to_register := [];
     operators := operators r';
     operators_by_sig := operators_by_sig r';
     operators_by_sig_literal := operators_by_sig_literal r' |}.

Definition registerPendingOperators : M t unit := modify flush.

Definition registerOperator (op : Operator) : M t unit :=
  modify (fun r =>
    let ptr := {| object_id := allocated r; get := op |} in
    {| allocated := S (allocated r);
       to_register := to_register r ++ [ptr];
       operators := operators r;
       operators_by_sig := operators_by_sig r;
       operators_by_sig_literal := operators_by_sig_literal r |}).

Definition not_found_message (name : CharPtr) : Err :=
  "Couldn't find an operator for " +:+ chars name +:+
  ". Do you have to update a set of hardcoded JIT ops (e.g., in torch/csrc/jit/ir.cpp)?".

Definition emplace_literal (name : CharPtr) (op : OpPtr) (r : t) : t :=
  {| allocated := allocated r;
     to_register := to_register r;
     operators := operators r;
     operators_by_sig := operators_by_sig r;
     operators_by_sig_literal :=
       <[address name := op]> (operators_by_sig_literal r) |}.

Definition lookupByLiteral (name : CharPtr) : M t OpPtr :=
  registerPendingOperators ;;
  it ← gets (fun r => operators_by_sig_literal r !! address name);
  match it with
  | Some op => mret op
  | None =>
      parsed ← call (call_parseSchema (chars name)) (parseSchema (chars name));
      op_ptr_it ← gets (fun r =>
        operators_by_sig r !! canonicalSchemaString parsed);
      match op_ptr_it with
      | None => throw (not_found_message name)
      | Some op => modify (emplace_literal name op) ;; mret op
      end
  end.

Definition getOperators (name : Symbol) : M t (list OpPtr) :=
  registerPendingOperators ;;
  it ← gets (fun r => find name (operators r));
  match it with
  | Some ops => mret ops
  | None => mret []
  end.

Definition EntryPair : Type := Z * Symbol.

Definition cmp (lhs rhs : EntryPair) : bool := bool_decide (lhs.1 > rhs.1)%Z.

Definition MAX_EDIT_DIST : N := 2.

(** The body of the loop over [operators] of [findSimilarOperators]; the
    distance is put on the queue as an [int64_t], which holds it exactly
    since it is at most 2. *)
Definition rank (input_op : Symbol) (rankings : list EntryPair)
    (op : Symbol * list OpPtr) : list EntryPair :=
  let edit_dist :=
    ComputeEditDistance (toQualString input_op) (toQualString op.1)
      MAX_EDIT_DIST in
  if bool_decide (edit_dist ≤ MAX_EDIT_DIST)%N
  then priority_queue.emplace cmp (Z.of_N edit_dist, op.1) rankings
  else rankings.

Definition findSimilarOperators (input_op : Symbol) : M t (list Symbol) :=
  registerPendingOperators ;;
  ops ← gets operators;
  let rankings := foldl (rank input_op) [] ops in
  mret (priority_queue.drain cmp snd rankings).

Definition getAllOperators : M t (list OpPtr) :=
  registerPendingOperators ;;
  ops ← gets operators;
  mret (foldl (fun values kv => values ++ kv.2) [] ops).

(** *** What [findSimilarOperators] ranks *)

(** The distance that the loop computes for a registered symbol. *)
Definition edit_dist (input_op sym : Symbol) : N :=
  ComputeEditDistance (toQualString input_op) (toQualString sym)
    MAX_EDIT_DIST.

Definition within_cap (input_op sym : Symbol) : Prop :=
  (edit_dist input_op sym <= MAX_EDIT_DIST)%N.

#[global] Instance within_cap_dec input_op sym :
  Decision (within_cap input_op sym).
Proof. unfold within_cap. apply _. Defined.

(** The pair that the loop puts on the queue for a symbol. *)
Definition entry (input_op sym : Symbol) : EntryPair :=
  (Z.of_N (edit_dist input_op sym), sym).

(** The registered symbols within the cap, in the order in which the
    loop over [operators] discovers them. *)
Definition candidates (input_op : Symbol) (m : OperatorMap) : list Symbol :=
  filter (within_cap input_op) (m.*1).

(** The ranking that the description words: a stable sort of the
    candidates by distance, which keeps candidates of equal distance in
    discovery order. *)
Fixpoint insert_by_distance (input_op sym : Symbol) (sorted : list Symbol)
    : list Symbol :=
  match sorted with
  | [] => [sym]
  | other :: rest =>
      if bool_decide (edit_dist input_op sym <= edit_dist input_op other)%N
      then sym :: other :: rest
      else other :: insert_by_distance input_op sym rest
  end.

Definition stable_by_distance (input_op : Symbol) (syms : list Symbol)
    : list Symbol :=
  foldr (insert_by_distance input_op) [] syms.
End registry.
End OperatorRegistry.

(** ** The functions of namespace torch::jit

    [getRegistry()] is the one registry of the process: the state that
    these functions run on. *)

Module c10.
Record OperatorName := { name : string; overload_name : string }.

#[global] Instance OperatorName_eq_dec : EqDecision OperatorName.
Proof. solve_decision. Defined.
End c10.

Definition newline : string := String (Ascii.ascii_of_nat 10) "".

Section jit.
Context `{Collaborators}.

Definition printer_handled : list Symbol :=
  fromQualString <$>
    ["prim::Constant"; "prim::Uninitialized"; "prim::fork";
     "prim::ListConstruct"; "prim::DictConstruct"; "prim::ListUnpack";
     "prim::Print"; "prim::PythonOp"; "prim::TupleConstruct";
     "prim::TupleIndex"; "prim::TupleSlice"; "prim::TupleUnpack";
     "prim::CreateObject"; "prim::GetAttr"; "prim::SetAttr";
     "prim::CallFunction"; "prim::isinstance"; "prim::unchecked_cast"].

Definition printer_unneeded : list Symbol :=
  fromQualString <$>
    ["onnx::Reshape"; "onnx::Shape"; "prim::AutogradZero";
     "prim::AutogradAnyNonZero"; "prim::AutogradAdd";
     "prim::ConstantChunk"; "prim::DifferentiableGraph";
     "prim::BroadcastSizes"; "prim::ChunkSizes"; "prim::Drop";
     "prim::FusedConcat"; "prim::FusionGroup"; "prim::Load";
     "prim::MMTreeReduce"; "prim::MMBatchSide"; "prim::Store";
     "prim::profile"].

Definition required_namespaces : list Symbol :=
  fromQualString <$>
    ["namespaces::prim"; "namespaces::aten"; "namespaces::onnx"].

(** [set.count(sym)] as a truth value *)
Definition count (sym : Symbol) (set : list Symbol) : bool :=
  bool_decide (sym ∈ set).

Definition printerHasSpecialCaseFor (sym : Symbol) : bool :=
  count sym printer_handled || count sym printer_unneeded ||
  negb (count (ns sym) required_namespaces).

Definition alias_handled : list Symbol :=
  fromQualString <$>
    ["prim::If"; "prim::Loop"; "prim::FusionGroup";
     "prim::DifferentiableGraph"; "prim::Constant"; "prim::Uninitialized";
     "prim::DictConstruct"; "prim::ListConstruct"; "prim::TupleConstruct";
     "prim::AutogradZero"; "prim::FusedConcat"; "prim::GradOf";
     "prim::MMTreeReduce"; "prim::MMBatchSide"; "prim::BroadcastSizes";
     "prim::ChunkSizes"; "prim::Function"; "prim::TupleUnpack";
     "prim::TupleIndex"; "prim::TupleSlice"; "prim::ListUnpack";
     "prim::PythonOp"; "prim::ConstantChunk"; "prim::BroadcastingChunk";
     "prim::fork"; "prim::CreateObject"; "prim::AutogradAdd";
     "prim::GetAttr"; "prim::SetAttr"; "prim::profile"; "prim::Print";
     "prim::CallFunction"; "prim::CallMethod"; "aten::wait";
     "prim::isinstance"; "prim::unchecked_cast"].

Definition alias_purposefully_not_handled : list Symbol :=
  fromQualString <$>
    ["prim::Load"; "prim::Store"; "prim::Drop"; "onnx::Reshape";
     "onnx::Shape"; "prim::AutogradAdd"].

Definition aliasAnalysisHasSpecialCaseFor (symbol : Symbol) : bool :=
  count symbol alias_handled || count symbol alias_purposefully_not_handled.

Definition missing_printer_message (op : Operator) : Err :=
  "Missing special case in python printer for non-schematized operator "
  +:+ name (schema op) +:+
  ". File a bug to add a case for this operator." +:+ newline.

Definition missing_alias_message (op : Operator) : Err :=
  "Missing special case in alias analysis for non-schematized operator "
  +:+ name (schema op) +:+
  ". File a bug to add a case for this operator." +:+ newline.

Definition contradictory_alias_message (op : Operator) : Err :=
  "The operator " +:+ name (schema op) +:+
  " is special cased and cannot use explicit alias analysis.".

(** [if (cond) AT_ERROR(msg);] *)
Definition error_if {St} (cond : bool) (msg : Err) : M St unit :=
  if cond then throw msg else mret tt.

Definition registerOperator (op : Operator) : M OperatorRegistry.t unit :=
  (if is_varret (schema op) then
     let s := fromQualString (name (schema op)) in
     error_if (negb (printerHasSpecialCaseFor s))
       (missing_printer_message op) ;;
     error_if (negb (aliasAnalysisHasSpecialCaseFor s) &&
               bool_decide (aliasAnalysisKind op = CONSERVATIVE))
       (missing_alias_message op) ;;
     error_if (aliasAnalysisHasSpecialCaseFor s &&
               bool_decide (aliasAnalysisKind op = FROM_SCHEMA))
       (contradictory_alias_message op)
   else mret tt) ;;
  OperatorRegistry.registerOperator op.

(** What the three checks of [registerOperator] reject. *)
Definition rejected (op : Operator) : Prop :=
  let s := fromQualString (name (schema op)) in
  is_varret (schema op) = true /\
  (printerHasSpecialCaseFor s = false \/
   (aliasAnalysisKind op = CONSERVATIVE /\
    aliasAnalysisHasSpecialCaseFor s = false) \/
   (aliasAnalysisKind op = FROM_SCHEMA /\
    aliasAnalysisHasSpecialCaseFor s = true)).

(** The state after [op] has been put on the queue. *)
Definition enqueued (op : Operator) (r : OperatorRegistry.t)
    : OperatorRegistry.t :=
  final (OperatorRegistry.registerOperator op r).

Definition getAllOperators : M OperatorRegistry.t (list OpPtr) :=
  OperatorRegistry.getAllOperators.

Definition getAllOperatorsFor (name : Symbol)
    : M OperatorRegistry.t (list OpPtr) :=
  OperatorRegistry.getOperators name.

(** The loop of [findOperatorFor]; [None] is [nullptr]. *)
Fixpoint first_overload (ops : list OpPtr) (overload : string)
    : option OpPtr :=
  match ops with
  | [] => None
  | op :: rest =>
      if decide (overload_name (schema (get op)) = overload)
      then Some op else first_overload rest overload
  end.

Definition findOperatorFor (full_name : c10.OperatorName)
    : M OperatorRegistry.t (option OpPtr) :=
  ops ← OperatorRegistry.getOperators (fromQualString (c10.name full_name));
  mret (first_overload ops (c10.overload_name full_name)).

Definition findSimilarOperators (input_op : Symbol)
    : M OperatorRegistry.t (list Symbol) :=
  OperatorRegistry.findSimilarOperators input_op.

Definition getOperatorForLiteral (signature : CharPtr)
    : M OperatorRegistry.t OpPtr :=
  OperatorRegistry.lookupByLiteral signature.
End jit.

(** ** Read operations

    The five lookups, as requests that can be put in a sequence. *)

Section reads.
Context `{Collaborators}.

Inductive Read :=
  | read_operators_for (name : Symbol)
  | read_operator_for_literal (signature : CharPtr)
  | read_similar (input_op : Symbol)
  | read_all
  | read_operator_for (full_name : c10.OperatorName).

#[global] Instance Read_eq_dec : EqDecision Read.
Proof. solve_decision. Defined.

Inductive Answer :=
  | operators_answer (ops : list OpPtr)
  | operator_answer (op : OpPtr)
  | symbols_answer (syms : list Symbol)
  | optional_answer (op : option OpPtr).

Definition read (q : Read) : M OperatorRegistry.t Answer :=
  match q with
  | read_operators_for name =>
      ops ← getAllOperatorsFor name; mret (operators_answer ops)
  | read_operator_for_literal signature =>
      op ← getOperatorForLiteral signature; mret (operator_answer op)
  | read_similar input_op =>
      syms ← findSimilarOperators input_op; mret (symbols_answer syms)
  | read_all =>
      ops ← getAllOperators; mret (operators_answer ops)
  | read_operator_for full_name =>
      op ← findOperatorFor full_name; mret (optional_answer op)
  end.

(** Two literal lookups agree on what is stored at an address they
    share: the text of a literal with static storage does not change. *)
Definition same_literal (q1 q2 : Read) : Prop :=
  match q1, q2 with
  | read_operator_for_literal n1, read_operator_for_literal n2 =>
      address n1 = address n2 -> chars n1 = chars n2
  | _, _ => True
  end.

(** One call of the registration or of a read. *)
Inductive step : OperatorRegistry.t -> OperatorRegistry.t -> Prop :=
  | step_register op r : step r (final (registerOperator op r))
  | step_read q r : step r (final (read q r)).

(** [history r ops]: the registry [r] is reached from the empty one by
    calls among which the successful registrations created the
    operators [ops], in this order. *)
Inductive history : OperatorRegistry.t -> list OpPtr -> Prop :=
  | history_empty : history OperatorRegistry.empty []
  | history_register op r ops :
      history r ops ->
      result (registerOperator op r) = inr tt ->
      history (final (registerOperator op r))
        (ops ++ [{| object_id := OperatorRegistry.allocated r; get := op |}])
  | history_rejected op r ops e :
      history r ops ->
      result (registerOperator op r) = inl e ->
      history (final (registerOperator op r)) ops
  | history_read q r ops :
      history r ops -> history (final (read q r)) ops.
(** The operators that a registry holds for a symbol: its bucket, then
    the pending ones. *)
Definition held (s : Symbol) (r : OperatorRegistry.t) : list OpPtr :=
  OperatorRegistry.bucket s (OperatorRegistry.operators r) ++
  filter (fun p => OperatorRegistry.symbol_is (OperatorRegistry.symbol_of p) s)
    (OperatorRegistry.to_register r).
End reads.

(** ** The contents of the indices *)

Section index_contents.
Context `{Collaborators}.

(** The operators of a list that have a given canonical string. *)
Definition same_canonical (k : string) (p : OpPtr) : Prop :=
  canonicalSchemaString (schema (get p)) = k.

#[global] Instance same_canonical_dec k p : Decision (same_canonical k p).
Proof. unfold same_canonical. apply _. Defined.

(** The last operator of a list with a given canonical string. *)
Definition latest (k : string) (ops : list OpPtr) : option OpPtr :=
  last (filter (same_canonical k) ops).

(** The contents of all buckets, in the order of the map. *)
Definition all_buckets (m : OperatorRegistry.OperatorMap) : list OpPtr :=
  concat (m.*2).

(** The indices of [r] hold exactly the operators [indexed]. *)
Definition indexed_as (r : OperatorRegistry.t) (indexed : list OpPtr) : Prop :=
  (forall k, OperatorRegistry.operators_by_sig r !! k = latest k indexed) /\
  (forall a p, OperatorRegistry.operators_by_sig_literal r !! a = Some p ->
     p ∈ indexed) /\
  all_buckets (OperatorRegistry.operators r) ≡ₚ indexed /\
  (forall s b, (s, b) ∈ OperatorRegistry.operators r ->
     b <> [] /\ forall p, p ∈ b -> OperatorRegistry.symbol_of p = s).
End index_contents.

Section answers.
Context `{Collaborators}.

(** The operators that an answer hands out. *)
Definition answer_operators (a : Answer) : list OpPtr :=
  match a with
  | operators_answer ops => ops
  | operator_answer op => [op]
  | symbols_answer _ => []
  | optional_answer op => option_list op
  end.

(** The full name under which an operator is found. *)
Definition full_name_of (op : Operator) : c10.OperatorName :=
  {| c10.name := name (schema op);
     c10.overload_name := overload_name (schema op) |}.

(** Two arguments are printed alike. *)
Definition printed_alike (a b : Argument) : Prop :=
  type a = type b /\ arg_name a = arg_name b.

(** The index of the first keyword-only argument, where the loop of
    [canonicalSchemaString] writes the marker. *)
Fixpoint first_keyword (args : list Argument) : option nat :=
  match args with
  | [] => None
  | a :: rest => if kwarg_only a then Some 0 else S <$> first_keyword rest
  end.
End answers.

(** ** A concrete set of collaborators

    Used to run the registry on concrete inputs: symbols are their
    qualified strings, the parser knows the two signatures of the example,
    and the distance is the Levenshtein distance. *)

Module Concrete.

(** The characters before the first "::". *)
Fixpoint before_colons (s : string) : string :=
  match s with
  | EmptyString => EmptyString
  | String c rest =>
      if is_prefix "::" s then EmptyString else String c (before_colons rest)
  end.

Definition namespace_of (sym : string) : string := "namespaces::" +:+ before_colons sym.

Definition aten_add_Tensor_literal : string :=
  "aten::add(Tensor self, Tensor other) -> Tensor".
Definition aten_add_Scalar_literal : string :=
  "aten::add(Tensor self, Scalar other) -> Tensor".

Definition parse_known (text : string) : Err + FunctionSchema :=
  if decide (text = aten_add_Tensor_literal) then inr aten_add_Tensor
  else if decide (text = aten_add_Scalar_literal) then inr aten_add_Scalar
  else inl ("unable to parse " +:+ text).

(** One row of the Levenshtein table from the row above it: [diagonal]
    and [left] are the entries above-left of and left of the entry being
    computed, [above] the rest of the row above. *)
Fixpoint next_row (c : Ascii.ascii) (word2 : string) (diagonal left : N)
    (above : list N) : list N :=
  match word2, above with
  | String d word2', up :: above' =>
      let here :=
        N.min (diagonal + (if decide (c = d) then 0 else 1))
              (N.min left up + 1) in
      here :: next_row c word2' up here above'
  | _, _ => []
  end%N.

Fixpoint rows (word1 word2 : string) (y : N) (row : list N)
    (maxEditDistance : N) : N :=
  match word1 with
  | EmptyString => List.last row 0%N
  | String c word1' =>
      let row := y :: next_row c word2 (y - 1) y (tail row) in
      let best_this_row := foldr N.min y row in
      if negb (maxEditDistance =? 0)%N && (maxEditDistance <? best_this_row)%N
      then (maxEditDistance + 1)%N
      else rows word1' word2 (y + 1) row maxEditDistance
  end%N.

(** Modelled from the spec: the edit distance lives outside operator.cpp;
    it is a bounded edit distance whose bound prunes the computation: once
    every entry of a row exceeds the bound, the answer is bound + 1. *)
Definition edit_distance (word1 word2 : string) (maxEditDistance : N)
    : N :=
  rows word1 word2 1
    (N.of_nat <$> seq 0 (S (String.length word2))) maxEditDistance.

#[export] Instance collaborators : Collaborators :=
  {| Symbol := string;
     fromQualString := id;
     toQualString := id;
     ns := namespace_of;
     parseSchema := parse_known;
     ComputeEditDistance := edit_distance |}.

(** Running a sequence of operations that return nothing. *)
Definition run_all (steps : list (M OperatorRegistry.t unit))
    : OperatorRegistry.t -> OperatorRegistry.t :=
  fun r => foldl (fun r step => final (step r)) r steps.

Definition op_of (s : FunctionSchema) : Operator :=
  {| schema := s; aliasAnalysisKind := FROM_SCHEMA |}.

Definition named (n : string) : FunctionSchema :=
  {| name := n; overload_name := ""; arguments := []; returns := [];
     is_varret := false |}.

Definition add_Tensor : Operator := op_of aten_add_Tensor.
Definition add_Scalar : Operator := op_of aten_add_Scalar.

(** Both overloads of aten::add registered, in this order. *)
Definition two_overloads : OperatorRegistry.t :=
  run_all [registerOperator add_Tensor; registerOperator add_Scalar]
    OperatorRegistry.empty.

Definition first_ptr : OpPtr := {| object_id := 0; get := add_Tensor |}.
Definition second_ptr : OpPtr := {| object_id := 1; get := add_Scalar |}.

Definition literal_at (a : N) (text : string) : CharPtr :=
  {| address := a; chars := text |}.

Definition custom_op : Operator :=
  {| schema := {| name := "custom::op"; overload_name := "";
                  arguments := []; returns := []; is_varret := true |};
     aliasAnalysisKind := INTERNAL_SPECIAL_CASE |}.

(** Four symbols at distance 1 from the target, registered in
    alphabetical order. *)
Definition four_ties : OperatorRegistry.t :=
  run_all
    (registerOperator <$>
       (op_of <$> (named <$>
          ["aten::ada"; "aten::adb"; "aten::adc"; "aten::add"])))
    OperatorRegistry.empty.
End Concrete.

(** ** Further concrete registries and schemas *)

Module MoreConcrete.
Import Concrete.

(** Only the first overload registered. *)
Definition one_overload : OperatorRegistry.t :=
  run_all [registerOperator add_Tensor] OperatorRegistry.empty.

(** Only the second overload registered. *)
Definition scalar_only : OperatorRegistry.t :=
  run_all [registerOperator add_Scalar] OperatorRegistry.empty.

Definition third_ptr : OpPtr := {| object_id := 2; get := add_Tensor |}.

Definition unlisted_op : Operator :=
  {| schema := {| name := "prim::Unlisted"; overload_name := "";
                  arguments := []; returns := []; is_varret := true |};
     aliasAnalysisKind := CONSERVATIVE |}.

Definition dim : TypePtr := {| str := "int" |}.

Definition sum_keywords : FunctionSchema :=
  {| name := "aten::sum"; overload_name := "";
     arguments := [positional Tensor "self"; keyword dim "dim";
                   keyword dim "keepdim"];
     returns := [positional Tensor ""]; is_varret := false |}.

Definition sum_mixed : FunctionSchema :=
  {| name := "aten::sum"; overload_name := "dim";
     arguments := [positional Tensor "self"; keyword dim "dim";
                   positional dim "keepdim"];
     returns := [positional Tensor "out"]; is_varret := true |}.

(** The first overload of aten::add under another overload name and with
    a named return. *)
Definition aten_add_renamed : FunctionSchema :=
  {| name := "aten::add"; overload_name := "out";
     arguments := [positional Tensor "self"; positional Tensor "other"];
     returns := [positional Tensor "out"]; is_varret := true |}.
End MoreConcrete.

(** * Properties *)

(** ** Strings *)

Section string_facts.

Lemma string_app_assoc (a b c : string) : (a +:+ b) +:+ c = a +:+ (b +:+ c).
Proof.
induction a as [|x a IH]; [done|].
change ((String x a +:+ b) +:+ c) with (String x ((a +:+ b) +:+ c)).
by rewrite IH.
Qed.

Lemma string_app_nil_r (a : string) : a +:+ "" = a.
Proof.
induction a as [|x a IH]; [done|].
change (String x a +:+ "") with (String x (a +:+ "")). by rewrite IH.
Qed.

Lemma string_app_nil_l (a : string) : "" +:+ a = a.
Proof. done. Qed.

Lemma is_prefix_app (p s : string) : is_prefix p (p +:+ s) = true.
Proof.
induction p as [|a p IH]; [done|].
change (String a p +:+ s) with (String a (p +:+ s)).
cbn [is_prefix]. rewrite IH. by rewrite bool_decide_eq_true_2.
Qed.

Lemma occurs_prefix (p s : string) : is_prefix p s = true -> occurs p s = true.
Proof. intros Hp. destruct s; cbn [occurs]; by rewrite Hp. Qed.

Lemma occurs_app (a p s : string) : occurs p (a +:+ (p +:+ s)) = true.
Proof.
induction a as [|x a IH].
- rewrite string_app_nil_l. apply occurs_prefix, is_prefix_app.
- change (String x a +:+ (p +:+ s)) with (String x (a +:+ (p +:+ s))).
  cbn [occurs]. rewrite IH. apply orb_true_r.
Qed.

End string_facts.

(** ** The canonical string *)

Section canonical.

Lemma pending_entries_cons seen a rest :
pending_entries seen (a :: rest) =
((if kwarg_only a && negb seen then "*, " else "") +:+ argument_entry a)
  :: pending_entries (if kwarg_only a && negb seen then true else seen) rest.
Proof. destruct seen, (kwarg_only a) eqn:E; cbn; rewrite ?E; done. Qed.

Lemma pending_entries_nil seen : pending_entries seen [] = [].
Proof. by destruct seen. Qed.

Lemma join_cons sep p q rest :
join sep (p :: q :: rest) = p +:+ sep +:+ join sep (q :: rest).
Proof. done. Qed.

Lemma arguments_loop_format args i seen out :
arguments_loop args i seen out =
match args with
| [] => out
| _ => out +:+ separator i +:+ join ", " (pending_entries seen args)
end.
Proof.
revert i seen out. induction args as [|a rest IH]; intros i seen out; [done|].
cbn [arguments_loop]. rewrite IH, pending_entries_cons.
assert (Hout :
  ((((if kwarg_only a && negb seen
      then (if bool_decide (0 < i) then out +:+ ", " else out) +:+ "*, "
      else if bool_decide (0 < i) then out +:+ ", " else out)
     +:+ str (type a)) +:+ " ") +:+ arg_name a)
  = out +:+ separator i +:+
    ((if kwarg_only a && negb seen then "*, " else "") +:+ argument_entry a)).
{ unfold separator, argument_entry.
  destruct (kwarg_only a && negb seen), (bool_decide (0 < i));
    rewrite ?string_app_assoc, ?string_app_nil_l. all: done. }
rewrite Hout. destruct rest as [|b rest].
{ by rewrite pending_entries_nil. }
rewrite pending_entries_cons, join_cons, <- pending_entries_cons.
unfold separator at 2. rewrite bool_decide_eq_true_2 by lia.
by rewrite !string_app_assoc.
Qed.

Lemma returns_loop_format rets i out :
returns_loop rets i out =
match rets with
| [] => out
| _ => out +:+ separator i +:+
       join ", " (map (fun ret => str (type ret)) rets)
end.
Proof.
revert i out. induction rets as [|a rest IH]; intros i out; [done|].
cbn [returns_loop]. rewrite IH.
assert (Hout :
  (if bool_decide (0 < i) then out +:+ ", " else out) +:+ str (type a)
  = out +:+ separator i +:+ str (type a)).
{ unfold separator. destruct (bool_decide (0 < i));
    rewrite ?string_app_assoc, ?string_app_nil_l; done. }
rewrite Hout. destruct rest as [|b rest]; [done|].
cbn [map]. rewrite join_cons.
unfold separator at 2. rewrite bool_decide_eq_true_2 by lia.
by rewrite !string_app_assoc.
Qed.

Lemma canonicalSchemaString_format schema :
canonicalSchemaString schema = canonical_format schema.
Proof.
unfold canonicalSchemaString, canonical_format.
rewrite arguments_loop_format, string_app_nil_l.
assert (Hargs :
  match arguments schema with
  | [] => name schema +:+ "("
  | _ :: _ => (name schema +:+ "(") +:+ separator 0 +:+
              join ", " (pending_entries false (arguments schema))
  end = name schema +:+ "(" +:+
        join ", " (argument_entries (arguments schema))).
{ destruct (arguments schema); cbn [argument_entries join].
  - by rewrite string_app_nil_r.
  - unfold separator, pending_entries. rewrite bool_decide_eq_false_2 by lia.
    by rewrite string_app_assoc, string_app_nil_l. }
rewrite Hargs. clear Hargs.
destruct (returns schema) as [|r1 [|r2 rets]]; cbn [returns_format].
- by rewrite !string_app_assoc.
- by rewrite !string_app_assoc.
- rewrite returns_loop_format. unfold separator.
  rewrite bool_decide_eq_false_2 by lia.
  by rewrite !string_app_assoc, ?string_app_nil_l.
Qed.

(** C3: [canonicalSchemaString] is a function of the schema whose value is
  the schema name, the parenthesized comma-separated "type name" entries
  with the marker "*, " in front of the first keyword-only argument, and
  " -> " followed by the one return type, by the parenthesized
  comma-separated return types when there are several, or by nothing when
  there is none; for aten::add(Tensor self, Tensor other) -> Tensor it is
  exactly that text. *)
Theorem canonical_string_format :
(forall schema, canonicalSchemaString schema = canonical_format schema) /\
canonicalSchemaString aten_add_Tensor =
  "aten::add(Tensor self, Tensor other) -> Tensor".
Proof. split; [apply canonicalSchemaString_format | reflexivity]. Qed.

End canonical.

(** ** Running the monad *)

Ltac run_monad :=
  unfold error_if, mbind, M_bind, mret, M_ret, throw, gets, modify, call;
  cbn [calls result final].

(** ** Registration checks *)

Section registration.
Context `{Collaborators}.

Lemma enqueued_to_register op r :
  OperatorRegistry.to_register (enqueued op r) =
  OperatorRegistry.to_register r ++
    [{| object_id := OperatorRegistry.allocated r; get := op |}].
Proof. done. Qed.

Lemma registerOperator_cases op r :
  (rejected op /\
   exists msg, registerOperator op r = MkOutcome [] (inl msg) r /\
               occurs (name (schema op)) msg = true) \/
  (~ rejected op /\
   registerOperator op r = MkOutcome [] (inr tt) (enqueued op r)).
Proof.
  unfold rejected, registerOperator, enqueued,
    OperatorRegistry.registerOperator.
  destruct (is_varret (schema op)) eqn:Hvar; run_monad;
    [|right; split; [intros [? _]; done | done]].
  destruct (printerHasSpecialCaseFor _) eqn:Hp; run_monad.
  2:{ left. split; [auto|]. eexists. split; [done|].
      unfold missing_printer_message. apply occurs_app. }
  destruct (aliasAnalysisHasSpecialCaseFor _) eqn:Ha; run_monad;
    destruct (aliasAnalysisKind op) eqn:Hk;
    rewrite ?bool_decide_eq_true_2 by done;
    rewrite ?bool_decide_eq_false_2 by done; run_monad; cbn.
  all: first
    [ right; split; [intros [_ [?|[[? ?]|[? ?]]]]; congruence | done]
    | left; split; [auto|]; eexists; split; [done|];
      first [unfold missing_alias_message | unfold contradictory_alias_message];
      apply occurs_app ].
Qed.

(** C2: [registerOperator] throws, with a message that names the
    operator and without touching the registry, exactly when the schema
    is variadic-return and the symbol is not special-cased by the
    printer, or the kind is CONSERVATIVE and the symbol is not
    special-cased by alias analysis, or the kind is FROM_SCHEMA and the
    symbol is special-cased by alias analysis; in every other case, and
    in particular for every schema that is not variadic-return, the
    operator is appended to the pending queue. *)
Theorem registerOperator_rejects_exactly (op : Operator)
    (r : OperatorRegistry.t) :
  ((exists msg, result (registerOperator op r) = inl msg) <-> rejected op) /\
  (forall msg, result (registerOperator op r) = inl msg ->
     occurs (name (schema op)) msg = true /\
     final (registerOperator op r) = r) /\
  (~ rejected op ->
     result (registerOperator op r) = inr tt /\
     final (registerOperator op r) = enqueued op r /\
     OperatorRegistry.to_register (final (registerOperator op r)) =
       OperatorRegistry.to_register r ++
         [{| object_id := OperatorRegistry.allocated r; get := op |}]) /\
  (is_varret (schema op) = false -> ~ rejected op).
Proof.
  destruct (registerOperator_cases op r) as [[Hrej (msg & -> & Hocc)]|[Hok ->]];
    cbn [result final].
  - split; [split; eauto|]. split; [intros ? [= <-]; done|].
    split; [done|]. intros Hv [Hv' _]. congruence.
  - split; [split; [intros [? [=]] | done]|].
    split; [intros ? [=]|]. split; [done|].
    intros Hv [Hv' _]. congruence.
Qed.

Lemma registerOperator_schematized op r :
  is_varret (schema op) = false ->
  registerOperator op r = MkOutcome [] (inr tt) (enqueued op r).
Proof.
  intros Hv. destruct (registerOperator_cases op r) as [[[Hv' _] _]|[_ ->]];
    [congruence | done].
Qed.

Lemma printer_message_not_alias op :
  missing_alias_message op <> missing_printer_message op /\
  contradictory_alias_message op <> missing_printer_message op.
Proof. split; intros Heq; cbv in Heq; discriminate. Qed.

(** C9: a variadic-return operator whose symbol has a namespace other
    than prim, aten and onnx passes the printer check, whether or not
    its symbol is in one of the two listed sets: the printer has a
    special case for it, and registering it does not throw the
    missing-printer error. *)
Theorem other_namespace_passes_printer_check (op : Operator)
    (r : OperatorRegistry.t) :
  is_varret (schema op) = true ->
  ns (fromQualString (name (schema op))) ∉ required_namespaces ->
  printerHasSpecialCaseFor (fromQualString (name (schema op))) = true /\
  result (registerOperator op r) <> inl (missing_printer_message op).
Proof.
  intros Hvar Hns.
  assert (Hp : printerHasSpecialCaseFor (fromQualString (name (schema op)))
               = true).
  { unfold printerHasSpecialCaseFor, count at 3.
    rewrite (bool_decide_eq_false_2 _ Hns). apply orb_true_r. }
  split; [done|].
  unfold registerOperator, OperatorRegistry.registerOperator.
  rewrite Hvar, Hp. run_monad.
  destruct (printer_message_not_alias op) as [Ha Hc].
  destruct (aliasAnalysisHasSpecialCaseFor _),
    (aliasAnalysisKind op); run_monad;
    repeat case_bool_decide; run_monad; cbn; congruence.
Qed.
End registration.

(** ** Flushing the pending queue *)

Section flush_facts.
Context `{Collaborators}.
Import OperatorRegistry.

Implicit Types (r : OperatorRegistry.t) (p : OpPtr) (s : Symbol).

Lemma registry_eq r r' :
  allocated r = allocated r' -> to_register r = to_register r' ->
  operators r = operators r' -> operators_by_sig r = operators_by_sig r' ->
  operators_by_sig_literal r = operators_by_sig_literal r' -> r = r'.
Proof. destruct r, r'; cbn; intros; by subst. Qed.

Lemma foldl_index_allocated l r :
  allocated (foldl index_operator r l) = allocated r.
Proof. revert r; induction l as [|p l IH]; intros r; [done|]. cbn. by rewrite IH. Qed.

Lemma foldl_index_literal l r :
  operators_by_sig_literal (foldl index_operator r l) =
  operators_by_sig_literal r.
Proof. revert r; induction l as [|p l IH]; intros r; [done|]. cbn. by rewrite IH. Qed.

Lemma foldl_index_operators l r :
  operators (foldl index_operator r l) =
  foldl (fun m p => push_back_at (symbol_of p) p m) (operators r) l.
Proof. revert r; induction l as [|p l IH]; intros r; [done|]. cbn. by rewrite IH. Qed.

Lemma foldl_index_by_sig l r :
  operators_by_sig (foldl index_operator r l) =
  foldl (fun (m : gmap string OpPtr) p =>
           <[canonicalSchemaString (schema (get p)) := p]> m)
        (operators_by_sig r) l.
Proof. revert r; induction l as [|p l IH]; intros r; [done|]. cbn. by rewrite IH. Qed.

Lemma flush_to_register r : to_register (flush r) = [].
Proof. done. Qed.

Lemma flush_allocated r : allocated (flush r) = allocated r.
Proof. apply foldl_index_allocated. Qed.

Lemma flush_literal r :
  operators_by_sig_literal (flush r) = operators_by_sig_literal r.
Proof. apply foldl_index_literal. Qed.

Lemma flush_drained r : to_register r = [] -> flush r = r.
Proof. intros Hq. unfold flush. rewrite Hq. cbn. by apply registry_eq. Qed.

Lemma flush_idemp r : flush (flush r) = flush r.
Proof. by apply flush_drained. Qed.

Lemma find_push_back_at s s' p m :
  find s (push_back_at s' p m) =
  if decide (s' = s) then Some (bucket s m ++ [p]) else find s m.
Proof.
  unfold bucket. induction m as [|[k ops] m IH]; cbn.
  - by destruct (decide (s' = s)).
  - destruct (decide (k = s')) as [->|Hk]; cbn.
    + destruct (decide (s' = s)); [done|done].
    + destruct (decide (k = s)) as [->|Hks].
      * by rewrite decide_False by done.
      * rewrite IH. by destruct (decide (s' = s)).
Qed.

Lemma bucket_push_back_at s s' p m :
  bucket s (push_back_at s' p m) =
  bucket s m ++ (if decide (symbol_is s' s) then [p] else []).
Proof.
  unfold bucket at 1. rewrite find_push_back_at. unfold symbol_is.
  destruct (decide (s' = s)); cbn; [done|]. by rewrite app_nil_r.
Qed.

Lemma bucket_foldl s l m :
  bucket s (foldl (fun m p => push_back_at (symbol_of p) p m) m l) =
  bucket s m ++ filter (fun p => symbol_is (symbol_of p) s) l.
Proof.
  revert m. induction l as [|p l IH]; intros m; cbn [foldl].
  - by rewrite filter_nil, app_nil_r.
  - rewrite IH, bucket_push_back_at, filter_cons.
    destruct (decide (symbol_is (symbol_of p) s)); cbn.
    + by rewrite <- app_assoc.
    + by rewrite app_nil_r.
Qed.

(** After a flush the bucket of a symbol holds what it held before,
    followed by the pending operators of that symbol in queue order. *)
Lemma bucket_flush s r :
  bucket s (operators (flush r)) =
  bucket s (operators r) ++
    filter (fun p => symbol_is (symbol_of p) s) (to_register r).
Proof.
  unfold flush. cbn [operators].
  by rewrite foldl_index_operators, bucket_foldl.
Qed.

Lemma by_sig_flush_last r l p :
  to_register r = l ++ [p] ->
  operators_by_sig (flush r) !! canonicalSchemaString (schema (get p))
    = Some p.
Proof.
  intros Hq. unfold flush. cbn [operators_by_sig].
  rewrite foldl_index_by_sig, Hq, foldl_app. cbn [foldl].
  apply lookup_insert_eq.
Qed.

Lemma foldl_by_sig_lookup (l : list OpPtr) (m : gmap string OpPtr) p :
  p ∈ l ->
  exists p',
    foldl (fun (m : gmap string OpPtr) p =>
             <[canonicalSchemaString (schema (get p)) := p]> m) m l
      !! canonicalSchemaString (schema (get p)) = Some p' /\
    p' ∈ l /\
    canonicalSchemaString (schema (get p')) =
    canonicalSchemaString (schema (get p)).
Proof.
  induction l as [|x l IH] using rev_ind; intros Hin.
  { by apply elem_of_nil in Hin. }
  rewrite foldl_app. cbn [foldl].
  destruct (decide (canonicalSchemaString (schema (get x)) =
                    canonicalSchemaString (schema (get p)))) as [Heq|Hne].
  - exists x. rewrite <- Heq, lookup_insert_eq. split; [done|].
    split; [|done]. apply elem_of_app. right. by left.
  - rewrite lookup_insert_ne by done.
    apply elem_of_app in Hin as [Hin|Hin].
    + destruct (IH Hin) as (p' & Hl & Hp' & Hc). exists p'.
      split; [done|]. split; [|done]. apply elem_of_app. by left.
    + apply list_elem_of_singleton in Hin. by subst.
Qed.

(** A flush puts every pending operator into the bucket of its symbol
    and leaves its canonical string bound to a pending operator with that
    canonical string. *)
Lemma flush_indexes_pending r p :
  p ∈ to_register r ->
  p ∈ bucket (symbol_of p) (operators (flush r)) /\
  exists p',
    operators_by_sig (flush r) !! canonicalSchemaString (schema (get p))
      = Some p' /\
    p' ∈ to_register r /\
    canonicalSchemaString (schema (get p')) =
    canonicalSchemaString (schema (get p)).
Proof.
  intros Hin. split.
  - rewrite bucket_flush, elem_of_app. right.
    by apply list_elem_of_filter.
  - unfold flush. cbn [operators_by_sig]. rewrite foldl_index_by_sig.
    by apply foldl_by_sig_lookup.
Qed.

Lemma keys_push_back_at s p (m : OperatorMap) :
  (push_back_at s p m).*1 = if decide (s ∈ m.*1) then m.*1 else m.*1 ++ [s].
Proof.
  induction m as [|[k ops] m IH]; cbn [push_back_at fmap list_fmap fst].
  - rewrite decide_False; [done|]. apply not_elem_of_nil.
  - destruct (decide (k = s)) as [->|Hk]; cbn [fmap list_fmap fst].
    + rewrite decide_True; [done|]. by left.
    + change (list_fmap _ _ fst ?l) with (l.*1). rewrite IH.
      destruct (decide (s ∈ m.*1)) as [Hin|Hout].
      * rewrite decide_True; [done|]. by right.
      * rewrite decide_False; [done|].
        intros [?|?]%elem_of_cons; [congruence|done].
Qed.

(** The keys of the map stay distinct. *)
Lemma flush_keys_NoDup r :
  NoDup (operators r).*1 -> NoDup (operators (flush r)).*1.
Proof.
  unfold flush. cbn [operators]. rewrite foldl_index_operators.
  generalize (operators r). induction (to_register r) as [|p l IH];
    intros m Hm; [done|].
  cbn [foldl]. apply IH. rewrite keys_push_back_at.
  case_decide; [done|]. apply NoDup_app. split; [done|].
  split; [|apply NoDup_singleton].
  intros x Hx Hs. apply list_elem_of_singleton in Hs. by subst.
Qed.
End flush_facts.

(** ** What each lookup computes *)

Section lookup_facts.
Context `{Collaborators}.
Import OperatorRegistry.

Implicit Types (r : OperatorRegistry.t) (p : OpPtr) (s : Symbol).

Lemma getOperators_run s r :
  OperatorRegistry.getOperators s r =
  MkOutcome [] (inr (bucket s (operators (flush r)))) (flush r).
Proof.
  unfold OperatorRegistry.getOperators, registerPendingOperators, bucket.
  run_monad. by destruct (find s (operators (flush r))).
Qed.

Lemma lookupByLiteral_run name r :
  lookupByLiteral name r =
  match operators_by_sig_literal r !! address name with
  | Some op => MkOutcome [] (inr op) (flush r)
  | None =>
      match parseSchema (chars name) with
      | inl e => MkOutcome [call_parseSchema (chars name)] (inl e) (flush r)
      | inr parsed =>
          match operators_by_sig (flush r) !! canonicalSchemaString parsed with
          | None =>
              MkOutcome [call_parseSchema (chars name)]
                (inl (not_found_message name)) (flush r)
          | Some op =>
              MkOutcome [call_parseSchema (chars name)] (inr op)
                (emplace_literal name op (flush r))
          end
      end
  end.
Proof.
  unfold lookupByLiteral, registerPendingOperators. run_monad.
  rewrite flush_literal.
  destruct (operators_by_sig_literal r !! address name); run_monad; [done|].
  destruct (parseSchema (chars name)) as [e|parsed]; run_monad; [done|].
  destruct (operators_by_sig (flush r) !! _); run_monad; done.
Qed.

Lemma findSimilarOperators_run s r :
  OperatorRegistry.findSimilarOperators s r =
  MkOutcome []
    (inr (priority_queue.drain cmp snd
            (foldl (rank s) [] (operators (flush r)))))
    (flush r).
Proof. done. Qed.

Lemma getAllOperators_run r :
  OperatorRegistry.getAllOperators r =
  MkOutcome []
    (inr (foldl (fun values kv => values ++ kv.2) [] (operators (flush r))))
    (flush r).
Proof. done. Qed.

Lemma findOperatorFor_run full_name r :
  findOperatorFor full_name r =
  MkOutcome []
    (inr (first_overload
            (bucket (fromQualString (c10.name full_name))
               (operators (flush r)))
            (c10.overload_name full_name)))
    (flush r).
Proof.
  unfold findOperatorFor. run_monad. by rewrite getOperators_run.
Qed.

Lemma emplace_literal_drained name op r :
  to_register r = [] -> flush (emplace_literal name op r) = emplace_literal name op r.
Proof. intros Hq. by apply flush_drained. Qed.

(** C1: when the address of the signature is not in the literal cache
    and the parser returns a schema for the text, the lookup calls the
    parser once and looks the canonical string of the schema up in the
    index by signature of the flushed registry; when there is no entry
    it throws an error naming the signature, and when there is one it
    returns that operator and stores it in the cache under the
    address. *)
Theorem literal_lookup_on_miss (signature : CharPtr)
    (r : OperatorRegistry.t) (parsed : FunctionSchema) :
  operators_by_sig_literal r !! address signature = None ->
  parseSchema (chars signature) = inr parsed ->
  let o := getOperatorForLiteral signature r in
  calls o = [call_parseSchema (chars signature)] /\
  match operators_by_sig (flush r) !! canonicalSchemaString parsed with
  | None =>
      result o = inl (not_found_message signature) /\
      occurs (chars signature) (not_found_message signature) = true /\
      final o = flush r
  | Some op =>
      result o = inr op /\
      final o = emplace_literal signature op (flush r) /\
      operators_by_sig_literal (final o) !! address signature = Some op
  end.
Proof.
  intros Hmiss Hparse. unfold getOperatorForLiteral.
  rewrite lookupByLiteral_run, Hmiss, Hparse.
  destruct (operators_by_sig (flush r) !! _) as [op|]; cbn.
  - repeat split. apply lookup_insert_eq.
  - repeat split. unfold not_found_message. apply occurs_app.
Qed.

(** A parse error leaves through the lookup as it is. *)
Lemma literal_lookup_parse_error signature r e :
  operators_by_sig_literal r !! address signature = None ->
  parseSchema (chars signature) = inl e ->
  getOperatorForLiteral signature r =
  MkOutcome [call_parseSchema (chars signature)] (inl e) (flush r).
Proof.
  intros Hmiss Hparse. unfold getOperatorForLiteral.
  by rewrite lookupByLiteral_run, Hmiss, Hparse.
Qed.

Lemma literal_lookup_cached signature r op :
  result (getOperatorForLiteral signature r) = inr op ->
  operators_by_sig_literal (final (getOperatorForLiteral signature r))
    !! address signature = Some op /\
  to_register (final (getOperatorForLiteral signature r)) = [].
Proof.
  unfold getOperatorForLiteral. rewrite lookupByLiteral_run.
  destruct (operators_by_sig_literal r !! address signature) as [op'|] eqn:Hc.
  { cbn [result final]. intros [= ->]. by rewrite flush_literal. }
  destruct (parseSchema (chars signature)) as [e|parsed]; [done|].
  destruct (operators_by_sig (flush r) !! _) as [op'|]; [|done].
  cbn [result final]. intros [= ->]. split; [apply lookup_insert_eq | done].
Qed.
End lookup_facts.

(** ** Lookup by symbol and by full name *)

Section by_symbol.
Context `{Collaborators}.
Local Abbreviation register := registerOperator.
Import OperatorRegistry.

Implicit Types (r : OperatorRegistry.t) (p : OpPtr) (s : Symbol).

Lemma first_overload_spec (ops : list OpPtr) (overload : string) :
  match first_overload ops overload with
  | Some op =>
      exists i, ops !! i = Some op /\
        overload_name (schema (get op)) = overload /\
        forall j op', j < i -> ops !! j = Some op' ->
          overload_name (schema (get op')) <> overload
  | None =>
      forall op', op' ∈ ops -> overload_name (schema (get op')) <> overload
  end.
Proof.
  induction ops as [|op ops IH]; cbn [first_overload].
  - intros op' Hin. by apply elem_of_nil in Hin.
  - destruct (decide (overload_name (schema (get op)) = overload)) as [Heq|Hne].
    + exists 0. split; [done|]. split; [done|]. intros j op' Hj. lia.
    + destruct (first_overload ops overload) as [found|].
      * destruct IH as (i & Hi & Hov & Hbefore).
        exists (S i). split; [done|]. split; [done|].
        intros [|j] op' Hj Hlook; cbn in Hlook.
        -- by injection Hlook as <-.
        -- apply (Hbefore j); [lia|done].
      * intros op' [->|Hin]%elem_of_cons; [done|by apply IH].
Qed.

(** In any registry, [findOperatorFor] returns the first match of the
    sequence that [getAllOperatorsFor] returns for the name. *)
Lemma first_match_in_bucket (full_name : c10.OperatorName)
    (r : OperatorRegistry.t) :
  exists (ops : list OpPtr) (found : option OpPtr),
    result (getAllOperatorsFor (fromQualString (c10.name full_name)) r)
      = inr ops /\
    result (findOperatorFor full_name r) = inr found /\
    match found with
    | Some op =>
        exists i, ops !! i = Some op /\
          overload_name (schema (get op)) = c10.overload_name full_name /\
          forall j op', j < i -> ops !! j = Some op' ->
            overload_name (schema (get op')) <> c10.overload_name full_name
    | None =>
        forall op', op' ∈ ops ->
          overload_name (schema (get op')) <> c10.overload_name full_name
    end.
Proof.
  unfold getAllOperatorsFor.
  rewrite getOperators_run, findOperatorFor_run. cbn [result].
  eexists _, _. split; [done|]. split; [done|].
  apply first_overload_spec.
Qed.

Lemma bind_ret_run {St A B} (m : M St A) (f : A -> B) (st : St) :
  (x ← m; mret (f x)) st =
  MkOutcome (calls (m st)) (sum_map id f (result (m st))) (final (m st)).
Proof.
  unfold mbind, M_bind, mret, M_ret.
  destruct (result (m st)); cbn; [done|]. by rewrite app_nil_r.
Qed.

Lemma lookupByLiteral_state signature r :
  final (lookupByLiteral signature r) = flush r \/
  exists op, final (lookupByLiteral signature r) =
             emplace_literal signature op (flush r).
Proof.
  rewrite lookupByLiteral_run.
  destruct (operators_by_sig_literal r !! address signature); [by left|].
  destruct (parseSchema (chars signature)); [by left|].
  destruct (operators_by_sig (flush r) !! _); [right; eauto | by left].
Qed.

Lemma read_state q r :
  final (read q r) = flush r \/
  exists signature op,
    final (read q r) = emplace_literal signature op (flush r).
Proof.
  destruct q as [name|signature|input|  |full_name];
    unfold read; rewrite bind_ret_run; cbn [final].
  - unfold getAllOperatorsFor. rewrite getOperators_run. by left.
  - destruct (lookupByLiteral_state signature r) as [?|[op ?]]; [by left|].
    right. by exists signature, op.
  - by left.
  - by left.
  - rewrite findOperatorFor_run. by left.
Qed.

Lemma read_run_state q r :
  allocated (final (read q r)) = allocated r /\
  to_register (final (read q r)) = [] /\
  operators (final (read q r)) = operators (flush r) /\
  operators_by_sig (final (read q r)) = operators_by_sig (flush r).
Proof.
  destruct (read_state q r) as [->|(signature & op & ->)];
    unfold emplace_literal;
    cbn [allocated to_register operators operators_by_sig];
    by rewrite flush_allocated.
Qed.

Lemma held_read s q r : held s (final (read q r)) = held s r.
Proof.
  destruct (read_run_state q r) as (_ & Hq & Hops & _). unfold held.
  by rewrite Hq, Hops, bucket_flush, filter_nil, app_nil_r.
Qed.

Lemma held_enqueued s op r :
  held s (enqueued op r) =
  held s r ++
    filter (fun p => symbol_is (symbol_of p) s)
      [{| object_id := allocated r; get := op |}].
Proof.
  unfold held. rewrite enqueued_to_register, filter_app.
  by rewrite app_assoc.
Qed.

Lemma registerOperator_final_ok op r :
  result (register op r) = inr tt ->
  final (register op r) = enqueued op r.
Proof.
  destruct (registerOperator_cases op r) as [[_ (msg & -> & _)]|[_ ->]];
    [done|done].
Qed.

Lemma registerOperator_final_error op r e :
  result (register op r) = inl e ->
  final (register op r) = r.
Proof.
  destruct (registerOperator_cases op r) as [[_ (msg & -> & _)]|[_ ->]];
    [done|done].
Qed.

Lemma history_held r ops :
  history r ops ->
  allocated r = length ops /\
  forall s, held s r = filter (fun p => symbol_is (symbol_of p) s) ops.
Proof.
  induction 1 as [|op r ops Hh [IHa IHs] Hok|op r ops e Hh IH Herr
                  |q r ops Hh [IHa IHs]].
  - split; [done|]. intros s. done.
  - rewrite (registerOperator_final_ok _ _ Hok). split.
    + rewrite length_app. cbn. rewrite IHa. lia.
    + intros s. by rewrite held_enqueued, filter_app, IHs.
  - by rewrite (registerOperator_final_error _ _ _ Herr).
  - split.
    + destruct (read_run_state q r) as (-> & _). done.
    + intros s. by rewrite held_read.
Qed.

Lemma history_object_ids r ops :
  history r ops -> forall i p, ops !! i = Some p -> object_id p = i.
Proof.
  induction 1 as [|op r ops Hh IH Hok|op r ops e Hh IH Herr|q r ops Hh IH];
    [by intros i p Hl | | done | done].
  intros i p Hl. apply lookup_app_Some in Hl as [Hl|[Hge Hl]]; [by apply IH|].
  apply list_lookup_singleton_Some in Hl as [Hi <-]. cbn.
  destruct (history_held _ _ Hh) as [-> _]. lia.
Qed.

(** C6: in a registry reached by any calls, of which the successful
    registrations created the operators [ops] in this order, the bucket
    that [findOperatorFor] scans for a full name holds the operators of
    [ops] registered under the symbol of the name, in registration
    order; [findOperatorFor] returns the first operator of that bucket
    whose overload name equals the requested one, nothing before it in
    the bucket having that overload name, and returns nothing when no
    operator of the bucket has that overload name. *)
Theorem find_operator_first_match (full_name : c10.OperatorName)
    (r : OperatorRegistry.t) (ops : list OpPtr) :
  history r ops ->
  let scanned :=
    filter (fun p => symbol_is (symbol_of p)
                       (fromQualString (c10.name full_name))) ops in
  result (getAllOperatorsFor (fromQualString (c10.name full_name)) r)
    = inr scanned /\
  exists found : option OpPtr,
    result (findOperatorFor full_name r) = inr found /\
    match found with
    | Some op =>
        exists i, scanned !! i = Some op /\
          overload_name (schema (get op)) = c10.overload_name full_name /\
          forall j op', j < i -> scanned !! j = Some op' ->
            overload_name (schema (get op')) <> c10.overload_name full_name
    | None =>
        forall op', op' ∈ scanned ->
          overload_name (schema (get op')) <> c10.overload_name full_name
    end.
Proof.
  intros Hh scanned. destruct (history_held _ _ Hh) as [_ Hheld].
  assert (Hbucket : bucket (fromQualString (c10.name full_name))
                      (operators (flush r)) = scanned).
  { rewrite bucket_flush. apply Hheld. }
  unfold getAllOperatorsFor.
  rewrite getOperators_run, findOperatorFor_run, Hbucket. cbn [result].
  split; [done|]. eexists. split; [done|].
  apply first_overload_spec.
Qed.

(** The keys of the map of a reachable registry are distinct, as the
    keys of a [std::unordered_map] are. *)
Lemma history_keys_NoDup r ops : history r ops -> NoDup (operators r).*1.
Proof.
  induction 1 as [|op r ops Hh IH Hok|op r ops e Hh IH Herr|q r ops Hh IH].
  - apply NoDup_nil_2.
  - by rewrite (registerOperator_final_ok _ _ Hok).
  - by rewrite (registerOperator_final_error _ _ _ Herr).
  - destruct (read_run_state q r) as (_ & _ & -> & _).
    by apply flush_keys_NoDup.
Qed.

(** C4: in a registry reached by any calls, of which the successful
    registrations created the operators [ops] in this order,
    [getAllOperatorsFor] does not throw and returns exactly the operators
    of [ops] registered under the symbol, in the order of [ops]: an
    empty sequence when there is none.  The operators of [ops] are
    distinct objects: the i-th has identity i. *)
Theorem operators_for_in_registration_order (r : OperatorRegistry.t)
    (ops : list OpPtr) (s : Symbol) :
  history r ops ->
  result (getAllOperatorsFor s r) =
    inr (filter (fun p => symbol_is (symbol_of p) s) ops) /\
  ((forall p, p ∈ ops -> symbol_of p <> s) ->
     result (getAllOperatorsFor s r) = inr []) /\
  (forall i p, ops !! i = Some p -> object_id p = i).
Proof.
  intros Hh. destruct (history_held _ _ Hh) as [_ Hheld].
  assert (Hres : result (getAllOperatorsFor s r) =
                 inr (filter (fun p => symbol_is (symbol_of p) s) ops)).
  { unfold getAllOperatorsFor. rewrite getOperators_run. cbn [result].
    rewrite bucket_flush. by rewrite <- Hheld. }
  split; [done|]. split; [|by apply (history_object_ids r)].
  intros Hnone. rewrite Hres. f_equal. clear Hres Hheld Hh.
  induction ops as [|p ops IH]; [done|].
  rewrite filter_cons, decide_False.
  - apply IH. intros q Hq. apply Hnone. by right.
  - apply Hnone. by left.
Qed.
End by_symbol.

(** ** Reads in either order *)

Section read_order.
Context `{Collaborators}.
Import OperatorRegistry.

Implicit Types (r : OperatorRegistry.t) (p : OpPtr) (s : Symbol) (q : Read).

Lemma lookupByLiteral_flush signature r :
  lookupByLiteral signature r = lookupByLiteral signature (flush r).
Proof. by rewrite !lookupByLiteral_run, flush_idemp, flush_literal. Qed.

Lemma read_flush q r : read q r = read q (flush r).
Proof.
  destruct q as [name|signature|input|  |full_name];
    unfold read; rewrite !bind_ret_run.
  - unfold getAllOperatorsFor. by rewrite !getOperators_run, flush_idemp.
  - unfold getOperatorForLiteral. by rewrite <- lookupByLiteral_flush.
  - unfold findSimilarOperators.
    by rewrite !findSimilarOperators_run, flush_idemp.
  - unfold getAllOperators. by rewrite !getAllOperators_run, flush_idemp.
  - by rewrite !findOperatorFor_run, flush_idemp.
Qed.

(** What a read leaves behind on a drained registry: the registry, or
    the registry with the literal of the read added to the cache. *)
Lemma read_drained_state q r :
  to_register r = [] ->
  final (read q r) = r \/
  exists signature op,
    q = read_operator_for_literal signature /\
    final (read q r) = emplace_literal signature op r.
Proof.
  intros Hq. pose proof (flush_drained r Hq) as Hf.
  destruct q as [name|signature|input|  |full_name];
    unfold read; rewrite bind_ret_run; cbn [final].
  - unfold getAllOperatorsFor. rewrite getOperators_run, Hf. by left.
  - unfold getOperatorForLiteral. rewrite lookupByLiteral_run, Hf.
    destruct (operators_by_sig_literal r !! address signature); [by left|].
    destruct (parseSchema (chars signature)); [by left|].
    destruct (operators_by_sig r !! _) as [op|]; [|by left].
    right. by exists signature, op.
  - unfold findSimilarOperators.
    rewrite findSimilarOperators_run, Hf. by left.
  - unfold getAllOperators. rewrite getAllOperators_run, Hf. by left.
  - rewrite findOperatorFor_run, Hf. by left.
Qed.

Lemma emplace_literal_commute n1 n2 op1 op2 r :
  address n1 <> address n2 ->
  emplace_literal n1 op1 (emplace_literal n2 op2 r) =
  emplace_literal n2 op2 (emplace_literal n1 op1 r).
Proof.
  intros Hne. apply registry_eq; try done. cbn.
  by apply insert_insert_ne.
Qed.

(** A cache entry at another address changes no answer. *)
Lemma read_frame q n' op' r :
  to_register r = [] ->
  (forall n, q = read_operator_for_literal n -> address n <> address n') ->
  read q (emplace_literal n' op' r) =
  MkOutcome (calls (read q r)) (result (read q r))
    (emplace_literal n' op' (final (read q r))).
Proof.
  intros Hq Hother. pose proof (flush_drained r Hq) as Hf.
  pose proof (emplace_literal_drained n' op' r Hq) as Hf'.
  destruct q as [name|signature|input|  |full_name];
    unfold read; rewrite !bind_ret_run; cbn [calls result final].
  - unfold getAllOperatorsFor. by rewrite !getOperators_run, Hf, Hf'.
  - unfold getOperatorForLiteral. rewrite !lookupByLiteral_run, Hf, Hf'.
    specialize (Hother signature eq_refl).
    assert (Hc : operators_by_sig_literal (emplace_literal n' op' r)
                   !! address signature
                 = operators_by_sig_literal r !! address signature).
    { cbn. by apply lookup_insert_ne. }
    rewrite Hc.
    destruct (operators_by_sig_literal r !! address signature); [done|].
    destruct (parseSchema (chars signature)); [done|].
    change (operators_by_sig (emplace_literal n' op' r))
      with (operators_by_sig r).
    destruct (operators_by_sig r !! _) as [op|]; [|done].
    cbn [calls result final]. f_equal. by apply emplace_literal_commute.
  - unfold findSimilarOperators.
    by rewrite !findSimilarOperators_run, Hf, Hf'.
  - unfold getAllOperators. by rewrite !getAllOperators_run, Hf, Hf'.
  - by rewrite !findOperatorFor_run, Hf, Hf'.
Qed.

Lemma literal_error_state signature r e :
  result (lookupByLiteral signature r) = inl e ->
  final (lookupByLiteral signature r) = flush r.
Proof.
  rewrite lookupByLiteral_run.
  destruct (operators_by_sig_literal r !! address signature); [done|].
  destruct (parseSchema (chars signature)); [done|].
  by destruct (operators_by_sig (flush r) !! _).
Qed.

(** Asking again gives the same answer and changes nothing. *)
Lemma read_twice q r :
  to_register r = [] ->
  result (read q (final (read q r))) = result (read q r) /\
  final (read q (final (read q r))) = final (read q r).
Proof.
  intros Hq. pose proof (flush_drained r Hq) as Hf.
  destruct (read_drained_state q r Hq) as [Hfin|(n & op & -> & _)];
    [by rewrite !Hfin|].
  unfold read. rewrite !bind_ret_run. cbn [calls result final].
  destruct (result (getOperatorForLiteral n r)) as [e|op1] eqn:Hres.
  - unfold getOperatorForLiteral in *.
    pose proof (literal_error_state _ _ _ Hres) as Hst. rewrite Hf in Hst.
    by rewrite !Hst, Hres.
  - destruct (literal_lookup_cached _ _ _ Hres) as [Hc Hd].
    unfold getOperatorForLiteral in *.
    rewrite (lookupByLiteral_run n (final _)), Hc, (flush_drained _ Hd).
    done.
Qed.

Lemma reads_commute q1 q2 r :
  to_register r = [] -> same_literal q1 q2 ->
  result (read q1 r) = result (read q1 (final (read q2 r))) /\
  result (read q2 r) = result (read q2 (final (read q1 r))) /\
  final (read q2 (final (read q1 r))) = final (read q1 (final (read q2 r))).
Proof.
  intros Hd Hsame.
  destruct (decide (q1 = q2)) as [<-|Hne].
  { destruct (read_twice q1 r Hd) as [-> _]. done. }
  assert (Hother : forall n1 n2, q1 = read_operator_for_literal n1 ->
            q2 = read_operator_for_literal n2 -> address n1 <> address n2).
  { intros n1 n2 -> -> Haddr. apply Hne. cbn in Hsame.
    specialize (Hsame Haddr). destruct n1, n2; cbn in *; by subst. }
  destruct (read_drained_state q1 r Hd) as [Hf1|(n1 & op1 & Hl1 & Hf1)];
    destruct (read_drained_state q2 r Hd) as [Hf2|(n2 & op2 & Hl2 & Hf2)].
  - by rewrite Hf1, Hf2.
  - assert (Hfr : forall n, q1 = read_operator_for_literal n ->
              address n <> address n2) by (intros n Hn; eauto).
    by rewrite Hf1, Hf2, (read_frame q1 n2 op2 r Hd Hfr), Hf1.
  - assert (Hfr : forall n, q2 = read_operator_for_literal n ->
              address n <> address n1).
    { intros n Hn Heq. by apply (Hother n1 n Hl1 Hn). }
    by rewrite Hf1, Hf2, (read_frame q2 n1 op1 r Hd Hfr), Hf2.
  - assert (Hne12 : address n1 <> address n2) by eauto.
    assert (Hfr1 : forall n, q1 = read_operator_for_literal n ->
              address n <> address n2) by (intros n Hn; eauto).
    assert (Hfr2 : forall n, q2 = read_operator_for_literal n ->
              address n <> address n1).
    { intros n Hn Heq. by apply (Hother n1 n Hl1 Hn). }
    rewrite Hf1, Hf2, (read_frame q2 n1 op1 r Hd Hfr2),
      (read_frame q1 n2 op2 r Hd Hfr1), Hf1, Hf2.
    cbn [result final]. split; [done|]. split; [done|].
    by apply emplace_literal_commute.
Qed.

(** C8: every read answers from the drained registry: it gives what it
    gives on the flushed registry, and leaves the queue empty, every
    operator that was pending in the bucket of its symbol and its
    canonical string bound in the index by signature, and both indices as
    the flush made them.  Two reads in either order leave the same two
    indices; when two literal lookups at one address carry the same text,
    as literals do, they also give the same answers and leave the same
    registry in either order. *)
Theorem reads_in_either_order (q1 q2 : Read) (r : OperatorRegistry.t) :
  let o1 := read q1 r in
  let o12 := read q2 (final o1) in
  let o2 := read q2 r in
  let o21 := read q1 (final o2) in
  read q1 r = read q1 (flush r) /\
  to_register (final o1) = [] /\
  operators (final o1) = operators (flush r) /\
  operators_by_sig (final o1) = operators_by_sig (flush r) /\
  (forall p, p ∈ to_register r ->
     p ∈ bucket (symbol_of p) (operators (final o1)) /\
     is_Some (operators_by_sig (final o1)
                !! canonicalSchemaString (schema (get p)))) /\
  operators (final o12) = operators (final o21) /\
  operators_by_sig (final o12) = operators_by_sig (final o21) /\
  (same_literal q1 q2 ->
     result o1 = result o21 /\
     result o2 = result o12 /\
     final o12 = final o21).
Proof.
  intros o1 o12 o2 o21.
  split; [apply read_flush|].
  destruct (read_run_state q1 r) as (_ & Hq1 & Hops1 & Hsig1).
  destruct (read_run_state q2 r) as (_ & Hq2 & Hops2 & Hsig2).
  destruct (read_run_state q2 (final o1)) as (_ & _ & Hops12 & Hsig12).
  destruct (read_run_state q1 (final o2)) as (_ & _ & Hops21 & Hsig21).
  fold o1 in Hq1, Hops1, Hsig1. fold o2 in Hq2, Hops2, Hsig2.
  fold o12 in Hops12, Hsig12. fold o21 in Hops21, Hsig21.
  rewrite (flush_drained _ Hq1) in Hops12, Hsig12.
  rewrite (flush_drained _ Hq2) in Hops21, Hsig21.
  do 3 (split; [done|]). split.
  { intros p Hp. destruct (flush_indexes_pending r p Hp) as [Hb (p' & Hs & _)].
    rewrite Hops1, Hsig1, Hs. by eauto. }
  split; [congruence|]. split; [congruence|].
  intros Hsame. subst o1 o12 o2 o21.
  rewrite (read_flush q1 r), (read_flush q2 r).
  destruct (reads_commute q1 q2 (flush r) (flush_to_register r) Hsame)
    as (? & ? & ?).
  done.
Qed.
End read_order.

(** ** Two operators with one canonical string *)

Section same_signature.
Context `{Collaborators}.
Local Abbreviation register := registerOperator.
Import OperatorRegistry.

Implicit Types (r : OperatorRegistry.t) (p : OpPtr) (s : Symbol) (q : Read).

Lemma getAllOperatorsFor_held s r :
  result (getAllOperatorsFor s r) = inr (held s r).
Proof.
  unfold getAllOperatorsFor. rewrite getOperators_run. cbn [result].
  by rewrite bucket_flush.
Qed.

Lemma step_held s r r' :
  step r r' -> allocated r <= allocated r' /\
  exists more, held s r' = held s r ++ more.
Proof.
  destruct 1 as [op r|q r].
  - destruct (registerOperator_cases op r) as [[_ (msg & -> & _)]|[_ ->]];
      cbn [final].
    + split; [done|]. exists []. by rewrite app_nil_r.
    + split; [cbn; lia|]. eexists. apply held_enqueued.
  - destruct (read_run_state q r) as (-> & _). split; [done|].
    exists []. by rewrite held_read, app_nil_r.
Qed.

Lemma steps_held s r r' :
  rtc step r r' -> allocated r <= allocated r' /\
  exists more, held s r' = held s r ++ more.
Proof.
  induction 1 as [r|r r1 r' Hstep _ [IHa [more IH]]].
  - split; [done|]. exists []. by rewrite app_nil_r.
  - destruct (step_held s _ _ Hstep) as [Ha [more1 H1]]. split; [lia|].
    exists (more1 ++ more). by rewrite IH, H1, app_assoc.
Qed.

(** C10, as amended: when an operator is registered, and later, after
    any calls in between, a second operator with the same canonical
    string is registered, the two are distinct objects; a read then finds
    each in the bucket of its symbol, the first before the second when
    they share the symbol; the index by signature maps the string to the
    second; and a literal lookup of a signature with that canonical
    string returns the second when the address of the signature is not
    in the literal cache. *)
Theorem same_signature_later_wins (op1 op2 : Operator)
    (r r' : OperatorRegistry.t) :
  canonicalSchemaString (schema op1) = canonicalSchemaString (schema op2) ->
  result (register op1 r) = inr tt ->
  rtc step (final (register op1 r)) r' ->
  result (register op2 r') = inr tt ->
  let p1 := {| object_id := allocated r; get := op1 |} in
  let p2 := {| object_id := allocated r'; get := op2 |} in
  let r2 := final (register op2 r') in
  object_id p1 < object_id p2 /\
  (exists ops1, result (getAllOperatorsFor (symbol_of p1) r2) = inr ops1 /\
                p1 ∈ ops1) /\
  (exists ops2, result (getAllOperatorsFor (symbol_of p2) r2) = inr ops2 /\
                p2 ∈ ops2) /\
  (symbol_of p1 = symbol_of p2 ->
     exists before between,
       result (getAllOperatorsFor (symbol_of p1) r2)
         = inr (before ++ [p1] ++ between ++ [p2])) /\
  operators_by_sig (flush r2) !! canonicalSchemaString (schema op1)
    = Some p2 /\
  (forall signature parsed,
     operators_by_sig_literal r2 !! address signature = None ->
     parseSchema (chars signature) = inr parsed ->
     canonicalSchemaString parsed = canonicalSchemaString (schema op1) ->
     result (getOperatorForLiteral signature r2) = inr p2).
Proof.
  intros Hcanon Hok1 Hsteps Hok2 p1 p2 r2.
  rewrite (registerOperator_final_ok _ _ Hok1) in Hsteps.
  assert (Hr2 : r2 = enqueued op2 r')
    by apply (registerOperator_final_ok _ _ Hok2).
  assert (Hheld : forall s, exists more,
            held s r2 =
            held s r ++ filter (fun p => symbol_is (symbol_of p) s) [p1]
              ++ more ++ filter (fun p => symbol_is (symbol_of p) s) [p2]).
  { intros s. destruct (steps_held s _ _ Hsteps) as [_ [more Hm]].
    exists more. rewrite Hr2, held_enqueued, Hm, held_enqueued.
    by rewrite <- !app_assoc. }
  assert (Hsig : operators_by_sig (flush r2)
                   !! canonicalSchemaString (schema op1) = Some p2).
  { rewrite Hcanon.
    apply (by_sig_flush_last r2 (to_register r') p2).
    by rewrite Hr2. }
  split.
  { destruct (steps_held (symbol_of p1) _ _ Hsteps) as [Ha _].
    cbn in *. lia. }
  split.
  { destruct (Hheld (symbol_of p1)) as [more Hm].
    eexists. split; [apply getAllOperatorsFor_held|]. rewrite Hm.
    rewrite filter_cons, decide_True by done.
    rewrite !elem_of_app. right. left. by left. }
  split.
  { destruct (Hheld (symbol_of p2)) as [more Hm].
    eexists. split; [apply getAllOperatorsFor_held|]. rewrite Hm.
    rewrite (filter_cons _ p2), decide_True by done.
    rewrite !elem_of_app. right. right. right. by left. }
  split.
  { intros Hsym. destruct (Hheld (symbol_of p1)) as [more Hm].
    exists (held (symbol_of p1) r), more.
    rewrite getAllOperatorsFor_held, Hm.
    rewrite !filter_cons, !filter_nil, !decide_True by done. done. }
  split; [done|].
  intros signature parsed Hmiss Hparse Hsame.
  unfold getOperatorForLiteral.
  by rewrite lookupByLiteral_run, Hmiss, Hparse, Hsame, Hsig.
Qed.
End same_signature.

(** ** The binary heap of std::priority_queue *)

Section heap_facts.
Context {T : Type} (comp : T -> T -> bool) (key : T -> Z).
Hypothesis comp_key : forall a b, comp a b = bool_decide (key b < key a)%Z.

Import priority_queue.

Implicit Types (c first : list T) (i n hole : nat).

Local Abbreviation ordered_at := (priority_queue.ordered_at key).
Local Abbreviation heap_upto := (priority_queue.heap_upto key).
Local Abbreviation swim_inv := (priority_queue.swim_inv key).
Local Abbreviation sink_inv := (priority_queue.sink_inv key).
Local Abbreviation ascending := (priority_queue.ascending key).

Lemma parent_bounds i : 0 < i -> 2 * ((i - 1) / 2) + 1 <= i <= 2 * ((i - 1) / 2) + 2.
Proof.
  intros Hi. pose proof (Nat.div_mod_eq (i - 1) 2) as Hd.
  pose proof (Nat.mod_upper_bound (i - 1) 2). lia.
Qed.

Lemma push_heap_loop_spec bound first hole value n :
  hole <= bound -> hole < n -> n <= length first ->
  swim_inv n (<[hole := value]> first) hole ->
  let R := push_heap_loop comp bound first hole 0 value in
  R ≡ₚ <[hole := value]> first /\ heap_upto n R /\
  (forall i, n <= i -> R !! i = first !! i).
Proof.
  revert first hole. induction bound as [|b IH]; intros first hole Hb Hn Hlen Hinv.
  - assert (hole = 0) as -> by lia. cbn.
    split; [done|]. split.
    + intros i Hi. apply Hinv; lia.
    + intros i Hi. apply list_lookup_insert_ne. lia.
  - cbn [push_heap_loop].
    destruct (first !! ((hole - 1) / 2)) as [ap|] eqn:Hap.
    2:{ apply lookup_ge_None in Hap.
        destruct (decide (hole = 0)) as [->|]; [cbn in Hap; lia|].
        pose proof (parent_bounds hole). lia. }
    destruct (bool_decide (0 < hole) && comp ap value) eqn:Hcond.
    + apply andb_true_iff in Hcond as [Hpos Hc].
      apply bool_decide_eq_true in Hpos. rewrite comp_key in Hc.
      apply bool_decide_eq_true in Hc.
      pose proof (parent_bounds hole Hpos) as Hp.
      set (p := (hole - 1) / 2) in *.
      destruct (IH (<[hole := ap]> first) p) as (Hperm & Hheap & Hrest).
      * lia.
      * lia.
      * by rewrite length_insert.
      * destruct Hinv as [H1 H2].
        assert (Hph : p <> hole) by lia.
        split.
        -- intros i Hi Hne x y Hx Hy.
           rewrite list_lookup_insert_ne in Hx by done.
           destruct (decide (i = hole)) as [->|Hih].
           ++ rewrite list_lookup_insert_eq in Hx by lia.
              fold p in Hy. rewrite list_lookup_insert_eq in Hy
                by (rewrite length_insert; lia).
              injection Hx as <-. injection Hy as <-. lia.
           ++ rewrite list_lookup_insert_ne in Hx by done.
              destruct (decide ((i - 1) / 2 = p)) as [Hip|Hip].
              ** rewrite Hip, list_lookup_insert_eq in Hy
                   by (rewrite length_insert; lia).
                 injection Hy as <-.
                 specialize (H1 i Hi Hih x ap).
                 rewrite list_lookup_insert_ne in H1 by done.
                 rewrite Hip, list_lookup_insert_ne in H1 by done.
                 specialize (H1 Hx Hap). lia.
              ** rewrite list_lookup_insert_ne in Hy by done.
                 destruct (decide ((i - 1) / 2 = hole)) as [Hiq|Hiq].
                 --- rewrite Hiq, list_lookup_insert_eq in Hy by lia.
                     injection Hy as <-.
                     specialize (H2 i x ap Hpos Hi Hiq).
                     rewrite !list_lookup_insert_ne in H2 by done.
                     by apply H2.
                 --- rewrite list_lookup_insert_ne in Hy by done.
                     specialize (H1 i Hi Hih x y).
                     rewrite !list_lookup_insert_ne in H1 by done.
                     by apply H1.
        -- intros j x y Hp0 Hj Hjp Hx Hy.
           pose proof (parent_bounds p Hp0) as Hpp.
           pose proof (parent_bounds j ltac:(lia)) as Hjj.
           rewrite list_lookup_insert_ne in Hx by lia.
           rewrite !list_lookup_insert_ne in Hy by lia.
           assert (Hyap : (key y <= key ap)%Z).
           { specialize (H1 p ltac:(lia) Hph ap y).
             rewrite !list_lookup_insert_ne in H1 by lia. by apply H1. }
           destruct (decide (j = hole)) as [->|Hjh].
           ++ rewrite list_lookup_insert_eq in Hx by lia.
              by injection Hx as <-.
           ++ rewrite list_lookup_insert_ne in Hx by done.
              specialize (H1 j Hj Hjh x ap).
              rewrite list_lookup_insert_ne in H1 by done.
              rewrite Hjp, list_lookup_insert_ne in H1 by done.
              specialize (H1 Hx Hap). lia.
      * split; [|split; [done|]].
        -- rewrite Hperm.
           rewrite <- (list_insert_insert_eq first hole ap value).
           apply Permutation_insert_swap.
           ++ rewrite list_lookup_insert_eq; [done|lia].
           ++ rewrite list_lookup_insert_ne by lia. done.
        -- intros i Hi. rewrite Hrest by done.
           apply list_lookup_insert_ne. lia.
    + split; [done|]. split.
      * intros i Hi. destruct (decide (i = hole)) as [->|Hne];
          [|by apply Hinv].
        intros x y Hx Hy. pose proof (parent_bounds hole ltac:(lia)).
        rewrite list_lookup_insert_eq in Hx by lia.
        rewrite list_lookup_insert_ne in Hy by lia.
        injection Hx as <-. rewrite Hap in Hy. injection Hy as <-.
        rewrite bool_decide_eq_true_2 in Hcond by lia. cbn in Hcond.
        rewrite comp_key in Hcond. apply bool_decide_eq_false in Hcond. lia.
      * intros i Hi. apply list_lookup_insert_ne. lia.
Qed.

Lemma emplace_spec x c :
  heap_upto (length c) c ->
  emplace comp x c ≡ₚ c ++ [x] /\
  heap_upto (length (emplace comp x c)) (emplace comp x c).
Proof.
  intros Hheap. unfold emplace, push_heap, push_heap_aux.
  rewrite last_snoc, length_app. cbn [length].
  replace (length c + 1 - 1) with (length c) by lia.
  destruct (push_heap_loop_spec (length c) (c ++ [x]) (length c) x
              (length c + 1)) as (Hperm & Hh & _).
  - done.
  - lia.
  - rewrite length_app. cbn. lia.
  - assert (Hid : <[length c := x]> (c ++ [x]) = c ++ [x]).
    { apply list_insert_id. rewrite lookup_app_r by lia.
      by rewrite Nat.sub_diag. }
    rewrite Hid. split.
    + intros i Hi Hne x' y Hx Hy.
      destruct (decide (i = 0)) as [->|]; [lia|].
      pose proof (parent_bounds i ltac:(lia)).
      rewrite lookup_app_l in Hx by lia.
      rewrite lookup_app_l in Hy by lia.
      apply (Hheap i ltac:(lia) x' y Hx Hy).
    + intros j x' y Hpos Hj Hjp _ _.
      pose proof (parent_bounds j ltac:(lia)). lia.
  - assert (Hid : <[length c := x]> (c ++ [x]) = c ++ [x]).
    { apply list_insert_id. rewrite lookup_app_r by lia.
      by rewrite Nat.sub_diag. }
    rewrite Hid in Hperm. split; [done|].
    by rewrite (Permutation_length Hperm), length_app.
Qed.

(** Moving the smallest child of the hole into the hole. *)
Lemma sink_step n first hole j child :
  n <= length first -> 0 < j < n -> (j - 1) / 2 = hole ->
  first !! j = Some child ->
  (forall o x, 0 < o < n -> (o - 1) / 2 = hole -> first !! o = Some x ->
     (key child <= key x)%Z) ->
  sink_inv n first hole ->
  sink_inv n (<[hole := child]> first) j.
Proof.
  intros Hlen Hj Hjp Hchild Hleast [H1 H2].
  pose proof (parent_bounds j ltac:(lia)) as Hjb.
  split.
  - intros i Hi Hij Hipj x y Hx Hy.
    pose proof (parent_bounds i ltac:(lia)) as Hib.
    destruct (decide (i = hole)) as [->|Hih].
    + rewrite list_lookup_insert_eq in Hx by lia. injection Hx as <-.
      rewrite list_lookup_insert_ne in Hy by lia.
      apply (H2 j child y); [lia|done|done|done|done].
    + rewrite list_lookup_insert_ne in Hx by done.
      destruct (decide ((i - 1) / 2 = hole)) as [Hip|Hip].
      * rewrite Hip, list_lookup_insert_eq in Hy by lia.
        injection Hy as <-. by apply (Hleast i).
      * rewrite list_lookup_insert_ne in Hy by done.
        by apply (H1 i).
  - intros g x y Hj0 Hg Hgp Hx Hy.
    pose proof (parent_bounds g ltac:(lia)) as Hgb.
    rewrite Hjp, list_lookup_insert_eq in Hy by lia. injection Hy as <-.
    rewrite list_lookup_insert_ne in Hx by lia.
    apply (H1 g Hg ltac:(lia) ltac:(lia) x child Hx).
    by rewrite Hgp.
Qed.

Lemma sink_step_perm first hole j child v :
  hole < length first -> first !! j = Some child -> j <> hole ->
  <[j := v]> (<[hole := child]> first) ≡ₚ <[hole := v]> first.
Proof.
  intros Hh Hchild Hne.
  rewrite <- (list_insert_insert_eq first hole child v).
  apply Permutation_insert_swap.
  - by rewrite list_lookup_insert_eq.
  - by rewrite list_lookup_insert_ne.
Qed.

Lemma adjust_heap_loop_spec bound first hole n first' hole' second' :
  n <= length first -> hole < n -> n - hole <= bound ->
  sink_inv n first hole ->
  adjust_heap_loop comp bound first hole hole n = (first', hole', second') ->
  second' = hole' /\ hole' < n /\ ~ hole' < (n - 1) / 2 /\
  sink_inv n first' hole' /\ length first' = length first /\
  (forall v, <[hole' := v]> first' ≡ₚ <[hole := v]> first) /\
  (forall i, n <= i -> first' !! i = first !! i).
Proof.
  revert first hole.
  induction bound as [|b IH]; intros first hole Hlen Hh Hb Hinv Hrun; [lia|].
  cbn [adjust_heap_loop] in Hrun. case_bool_decide as Hcond.
  2:{ injection Hrun as <- <- <-. repeat split; try done; apply Hinv. }
  pose proof (Nat.div_mod_eq (n - 1) 2) as Hd.
  pose proof (Nat.mod_upper_bound (n - 1) 2 ltac:(lia)) as Hm.
  destruct (first !! (2 * (hole + 1))) as [r|] eqn:Hr.
  2:{ apply lookup_ge_None in Hr. lia. }
  destruct (first !! (2 * (hole + 1) - 1)) as [l|] eqn:Hl.
  2:{ apply lookup_ge_None in Hl. lia. }
  set (j := if comp r l then 2 * (hole + 1) - 1 else 2 * (hole + 1)) in *.
  assert (Hj : j = 2 * hole + 1 \/ j = 2 * hole + 2)
    by (subst j; destruct (comp r l); lia).
  assert (Hjp : (j - 1) / 2 = hole).
  { pose proof (parent_bounds j ltac:(lia)). lia. }
  destruct (first !! j) as [child|] eqn:Hchild.
  2:{ apply lookup_ge_None in Hchild. lia. }
  assert (Hleast : forall o x, 0 < o < n -> (o - 1) / 2 = hole ->
            first !! o = Some x -> (key child <= key x)%Z).
  { intros o x Ho Hop Hx. pose proof (parent_bounds o ltac:(lia)) as Hob.
    assert (Hcmp := comp_key r l). subst j.
    assert (o = 2 * (hole + 1) - 1 \/ o = 2 * (hole + 1)) as [->| ->] by lia;
      destruct (comp r l); case_bool_decide; simplify_eq; lia. }
  apply IH in Hrun as (-> & Hlt & Hstop & Hinv' & Hlen' & Hperm & Hrest).
  - rewrite length_insert in Hlen'.
    do 5 (split; [done|]). split.
    + intros v. rewrite Hperm. apply sink_step_perm; [lia|done|lia].
    + intros i Hi. rewrite Hrest by done.
      apply list_lookup_insert_ne. lia.
  - by rewrite length_insert.
  - lia.
  - lia.
  - apply (sink_step n first hole j child); [done|lia|done..].
Qed.

Lemma heap_sink_inv n c : heap_upto n c -> sink_inv n c 0.
Proof.
  intros Hheap. split; [|intros; lia].
  intros i Hi _ _. by apply Hheap.
Qed.

Lemma leaf_swim_inv n first hole value :
  (forall j, 0 < j < n -> (j - 1) / 2 <> hole) ->
  sink_inv n first hole ->
  swim_inv n (<[hole := value]> first) hole.
Proof.
  intros Hleaf [H1 _]. split.
  - intros i Hi Hne x y Hx Hy.
    rewrite list_lookup_insert_ne in Hx by done.
    rewrite list_lookup_insert_ne in Hy by (intros ?; by apply (Hleaf i)).
    apply (H1 i Hi Hne (Hleaf i Hi) x y Hx Hy).
  - intros j x y _ Hj Hjp. by destruct (Hleaf j Hj).
Qed.

Lemma adjust_heap_spec first n value :
  0 < n <= length first -> heap_upto n first ->
  adjust_heap comp first 0 n value ≡ₚ <[0 := value]> first /\
  heap_upto n (adjust_heap comp first 0 n value) /\
  (forall i, n <= i -> adjust_heap comp first 0 n value !! i = first !! i).
Proof.
  intros Hn Hheap. unfold adjust_heap.
  destruct (adjust_heap_loop comp n first 0 0 n) as [[first1 h1] s1] eqn:Hrun.
  apply adjust_heap_loop_spec in Hrun
    as (-> & Hlt & Hstop & Hinv & Hlen & Hperm & Hrest);
    [|lia|lia|lia|by apply heap_sink_inv].
  pose proof (Nat.div_mod_eq (n - 1) 2) as Hd1.
  pose proof (Nat.mod_upper_bound (n - 1) 2 ltac:(lia)) as Hm1.
  pose proof (Nat.div_mod_eq (n - 2) 2) as Hd2.
  pose proof (Nat.mod_upper_bound (n - 2) 2 ltac:(lia)) as Hm2.
  pose proof (Nat.div_mod_eq n 2) as Hd.
  pose proof (Nat.mod_upper_bound n 2 ltac:(lia)) as Hm.
  unfold push_heap_aux.
  destruct (bool_decide (n mod 2 = 0) && bool_decide (h1 = (n - 2) / 2))
    eqn:Hspecial.
  - apply andb_true_iff in Hspecial as [Heven Hlast].
    apply bool_decide_eq_true in Heven, Hlast.
    assert (Hchild_ix : 2 * (h1 + 1) - 1 = n - 1) by lia.
    rewrite Hchild_ix.
    destruct (first1 !! (n - 1)) as [child|] eqn:Hchild.
    2:{ apply lookup_ge_None in Hchild. lia. }
    assert (Hjp : (n - 1 - 1) / 2 = h1).
    { pose proof (parent_bounds (n - 1) ltac:(lia)). lia. }
    destruct (push_heap_loop_spec (n - 1) (<[h1 := child]> first1)
                (n - 1) value n) as (Hp & Hh & Hr).
    + done.
    + lia.
    + rewrite length_insert. lia.
    + apply leaf_swim_inv.
      * intros j Hj. pose proof (parent_bounds j ltac:(lia)). lia.
      * apply (sink_step n first1 h1 (n - 1) child);
          [lia|lia|done|done| |done].
        intros o x Ho Hop Hx. pose proof (parent_bounds o ltac:(lia)).
        assert (o = n - 1) as -> by lia. rewrite Hchild in Hx.
        injection Hx as <-. lia.
    + split; [|split; [done|]].
      * rewrite Hp, <- Hperm. apply sink_step_perm; [lia|done|lia].
      * intros i Hi. rewrite Hr, list_lookup_insert_ne by lia.
        by apply Hrest.
  - assert (Hleaf : forall j, 0 < j < n -> (j - 1) / 2 <> h1).
    { intros j Hj Hjp. pose proof (parent_bounds j ltac:(lia)) as Hjb.
      apply andb_false_iff in Hspecial as [Hodd|Hnot];
        apply bool_decide_eq_false in Hodd || apply bool_decide_eq_false in Hnot;
        lia. }
    destruct (push_heap_loop_spec h1 first1 h1 value n) as (Hp & Hh & Hr).
    + done.
    + lia.
    + lia.
    + by apply leaf_swim_inv.
    + split; [|split; [done|]].
      * by rewrite Hp, Hperm.
      * intros i Hi. rewrite Hr by done. by apply Hrest.
Qed.

Lemma heap_upto_agree n c c' :
  (forall i, i < n -> c' !! i = c !! i) -> heap_upto n c -> heap_upto n c'.
Proof.
  intros Hsame Hheap i Hi x y Hx Hy.
  pose proof (parent_bounds i ltac:(lia)).
  rewrite Hsame in Hx by lia. rewrite Hsame in Hy by lia.
  by apply (Hheap i Hi).
Qed.

Lemma pop_spec c front :
  heap_upto (length c) c -> c !! 0 = Some front ->
  pop comp c ++ [front] ≡ₚ c /\
  heap_upto (length (pop comp c)) (pop comp c) /\
  length (pop comp c) = length c - 1.
Proof.
  intros Hheap Hfront. unfold pop, pop_heap.
  case_bool_decide as Hlen.
  2:{ destruct c as [|x [|y c]]; simplify_eq/=; [|lia].
      split; [done|]. split; [|done]. intros i Hi. lia. }
  rewrite Hfront.
  destruct (c !! (length c - 1)) as [value|] eqn:Hvalue.
  2:{ apply lookup_ge_None in Hvalue. lia. }
  set (n := length c - 1) in *.
  set (first := <[n := front]> c).
  destruct (adjust_heap_spec first n value) as (Hperm & Hh & Hrest).
  { subst first. rewrite length_insert. lia. }
  { apply (heap_upto_agree n c).
    - intros i Hi. subst first. apply list_lookup_insert_ne. lia.
    - intros i Hi. apply Hheap. lia. }
  set (R := adjust_heap comp first 0 n value) in *.
  assert (HlenR : length R = S n).
  { rewrite (Permutation_length Hperm). subst first.
    rewrite !length_insert. lia. }
  assert (Hlast : R !! n = Some front).
  { rewrite Hrest by done. subst first. apply list_lookup_insert_eq. lia. }
  replace (length R - 1) with n by lia.
  assert (HR : R = take n R ++ [front]).
  { rewrite <- (take_drop n R) at 1. f_equal.
    apply list_eq. intros [|i].
    - rewrite lookup_drop, Nat.add_0_r. done.
    - rewrite lookup_drop. cbn. apply lookup_ge_None. lia. }
  split; [|split].
  - rewrite <- HR, Hperm. subst first.
    apply Permutation_insert_swap; [done|].
    by replace n with (length c - 1) by done.
  - rewrite length_take_le by lia.
    apply (heap_upto_agree n R); [|done].
    intros i Hi. by apply lookup_take_lt.
  - rewrite length_take_le by lia. done.
Qed.

Lemma heap_top_min n c front :
  heap_upto n c -> n <= length c -> c !! 0 = Some front ->
  forall i x, i < n -> c !! i = Some x -> (key front <= key x)%Z.
Proof.
  intros Hheap Hn Hfront i.
  induction i as [i IH] using lt_wf_ind. intros x Hi Hx.
  destruct (decide (i = 0)) as [->|Hpos].
  { rewrite Hfront in Hx. injection Hx as <-. lia. }
  pose proof (parent_bounds i ltac:(lia)) as Hb.
  destruct (c !! ((i - 1) / 2)) as [y|] eqn:Hy.
  2:{ apply lookup_ge_None in Hy. lia. }
  pose proof (Hheap i ltac:(lia) x y Hx Hy).
  pose proof (IH ((i - 1) / 2) ltac:(lia) y ltac:(lia) Hy). lia.
Qed.

Lemma drain_loop_spec {R} (f : T -> R) bound c ret :
  length c <= bound -> heap_upto (length c) c ->
  exists l, drain_loop comp f bound c ret = ret ++ map f l /\
            l ≡ₚ c /\ ascending l.
Proof.
  revert c ret. induction bound as [|b IH]; intros c ret Hb Hheap.
  - destruct c; [|cbn in Hb; lia]. exists []. cbn.
    split; [by rewrite app_nil_r|]. split; [done|constructor].
  - cbn [drain_loop]. unfold top.
    destruct (c !! 0) as [t|] eqn:Ht.
    2:{ destruct c; [|done]. exists []. cbn.
        split; [by rewrite app_nil_r|]. split; [done|constructor]. }
    destruct (pop_spec c t Hheap Ht) as (Hperm & Hh & Hlen).
    destruct (IH (pop comp c) (ret ++ [f t]) ltac:(lia) Hh)
      as (l & -> & Hl & Hsorted).
    exists (t :: l). split; [by rewrite <- app_assoc|]. split.
    + rewrite <- Hperm, Hl. apply Permutation_cons_append.
    + constructor; [done|]. apply Forall_forall. intros x Hx.
      assert (Hin : x ∈ c).
      { rewrite <- Hperm, elem_of_app. left. by rewrite <- Hl. }
      apply list_elem_of_lookup in Hin as [i Hi].
      apply (heap_top_min (length c) c t Hheap ltac:(done) Ht i x); [|done].
      by apply lookup_lt_Some in Hi.
Qed.

Lemma drain_spec {R} (f : T -> R) c :
  heap_upto (length c) c ->
  exists l, drain comp f c = map f l /\ l ≡ₚ c /\ ascending l.
Proof.
  intros Hheap. destruct (drain_loop_spec f (length c) c [] ltac:(done) Hheap)
    as (l & Hl & ?). by exists l.
Qed.
End heap_facts.

(** *** Relabelling

    The queue looks at its elements only through the comparison. *)

Section relabel.
Context {T T' R : Type} (comp : T -> T -> bool) (comp' : T' -> T' -> bool).
Context (g : T' -> T).
Hypothesis comp_g : forall x y, comp (g x) (g y) = comp' x y.

Import priority_queue.

Lemma push_heap_loop_fmap bound (first : list T') hole top value :
  push_heap_loop comp bound (g <$> first) hole top (g value) =
  g <$> push_heap_loop comp' bound first hole top value.
Proof.
  revert first hole. induction bound as [|bound IH]; intros first hole.
  { cbn. by rewrite list_fmap_insert. }
  cbn [push_heap_loop]. rewrite list_lookup_fmap.
  destruct (first !! ((hole - 1) / 2)) as [at_parent|]; cbn [fmap option_fmap option_map];
    [|by rewrite list_fmap_insert].
  rewrite comp_g.
  destruct (bool_decide (top < hole) && comp' at_parent value);
    [|by rewrite list_fmap_insert].
  by rewrite <- list_fmap_insert, IH.
Qed.

Lemma push_heap_fmap (c : list T') :
  push_heap comp (g <$> c) = g <$> push_heap comp' c.
Proof.
  unfold push_heap, push_heap_aux. rewrite fmap_last, length_fmap.
  destruct (last c); cbn [fmap option_fmap option_map]; [|done].
  apply push_heap_loop_fmap.
Qed.

Lemma emplace_fmap x (c : list T') :
  emplace comp (g x) (g <$> c) = g <$> emplace comp' x c.
Proof.
  unfold emplace. rewrite <- push_heap_fmap. by rewrite fmap_app.
Qed.

Lemma adjust_heap_loop_fmap bound (first : list T') hole second len :
  adjust_heap_loop comp bound (g <$> first) hole second len =
  let '(first', hole', second') :=
    adjust_heap_loop comp' bound first hole second len in
  (g <$> first', hole', second').
Proof.
  revert first hole second.
  induction bound as [|bound IH]; intros first hole second; [done|].
  cbn [adjust_heap_loop]. case_bool_decide; [|done].
  rewrite !list_lookup_fmap.
  destruct (first !! (2 * (second + 1))) as [at_second|];
    cbn [fmap option_fmap option_map]; [|done].
  destruct (first !! (2 * (second + 1) - 1)) as [at_before|];
    cbn [fmap option_fmap option_map]; [|done].
  rewrite comp_g, list_lookup_fmap.
  destruct (first !! _) as [child|]; cbn [fmap option_fmap option_map];
    [|done].
  by rewrite <- list_fmap_insert, IH.
Qed.

Lemma adjust_heap_fmap (first : list T') hole len value :
  adjust_heap comp (g <$> first) hole len (g value) =
  g <$> adjust_heap comp' first hole len value.
Proof.
  unfold adjust_heap. rewrite adjust_heap_loop_fmap.
  destruct (adjust_heap_loop comp' len first hole hole len)
    as [[first1 hole1] second1].
  destruct (bool_decide (len mod 2 = 0) && bool_decide (second1 = (len - 2) / 2)).
  - rewrite list_lookup_fmap.
    destruct (first1 !! _) as [child|]; cbn [fmap option_fmap option_map].
    + rewrite <- list_fmap_insert. apply push_heap_loop_fmap.
    + apply push_heap_loop_fmap.
  - apply push_heap_loop_fmap.
Qed.

Lemma pop_fmap (c : list T') : pop comp (g <$> c) = g <$> pop comp' c.
Proof.
  unfold pop, pop_heap. rewrite length_fmap.
  case_bool_decide.
  - rewrite !list_lookup_fmap.
    destruct (c !! (length c - 1)) as [value|];
      cbn [fmap option_fmap option_map]; [|by rewrite length_fmap, fmap_take].
    destruct (c !! 0) as [front|];
      cbn [fmap option_fmap option_map]; [|by rewrite length_fmap, fmap_take].
    by rewrite <- list_fmap_insert, adjust_heap_fmap, length_fmap, fmap_take.
  - by rewrite length_fmap, fmap_take.
Qed.

Lemma drain_loop_fmap (f : T -> R) bound (c : list T') ret :
  drain_loop comp f bound (g <$> c) ret =
  drain_loop comp' (f ∘ g) bound c ret.
Proof.
  revert c ret. induction bound as [|bound IH]; intros c ret; [done|].
  cbn [drain_loop]. unfold top. rewrite list_lookup_fmap.
  destruct (c !! 0) as [t|]; cbn [fmap option_fmap option_map]; [|done].
  by rewrite pop_fmap, IH.
Qed.

Lemma drain_fmap (f : T -> R) (c : list T') :
  drain comp f (g <$> c) = drain comp' (f ∘ g) c.
Proof. unfold drain. rewrite length_fmap. apply drain_loop_fmap. Qed.

Lemma emplace_all_fmap (l q : list T') :
  foldl (fun q e => emplace comp e q) (g <$> q) (g <$> l) =
  g <$> foldl (fun q e => emplace comp' e q) q l.
Proof.
  revert q. induction l as [|x l IH]; intros q; [done|].
  cbn [foldl fmap list_fmap]. by rewrite emplace_fmap, IH.
Qed.
End relabel.


(** *** Ties

    Four entries that compare equal leave the queue with the second and
    the third exchanged. *)

Section ties.
Context {T R : Type} (comp : T -> T -> bool) (f : T -> R) (a b c d : T).
Hypothesis tied :
  forall x y, x ∈ [a; b; c; d] -> y ∈ [a; b; c; d] -> comp x y = false.

Import priority_queue.

Lemma four_ties_drain :
  drain comp f (foldl (fun q e => emplace comp e q) [] [a; b; c; d])
  = [f a; f c; f b; f d].
Proof.
  assert (Hg : forall x y, comp (nth_tied a b c d x) (nth_tied a b c d y) = false).
  { intros x y. apply tied; [destruct x | destruct y]; set_solver. }
  change [a; b; c; d]
    with (nth_tied a b c d <$> [first_in; second_in; third_in; fourth_in]).
  change (@nil T) with (nth_tied a b c d <$> []).
  rewrite (emplace_all_fmap comp (fun _ _ => false) (nth_tied a b c d) Hg).
  rewrite (drain_fmap comp (fun _ _ => false) (nth_tied a b c d) Hg).
  reflexivity.
Qed.
End ties.

(** ** Suggestions *)

Section similar.
Context `{Collaborators}.
Local Abbreviation suggestions := findSimilarOperators.
Import OperatorRegistry.

Implicit Types (r : OperatorRegistry.t) (s target : Symbol).

Lemma cmp_key (a b : EntryPair) : cmp a b = bool_decide (b.1 < a.1)%Z.
Proof. unfold cmp. apply bool_decide_ext. lia. Qed.

Lemma rank_cases target (acc : list EntryPair) sym (ops : list OpPtr) :
  rank target acc (sym, ops) =
  if decide (within_cap target sym)
  then priority_queue.emplace cmp (entry target sym) acc
  else acc.
Proof.
  unfold rank, entry, within_cap, edit_dist. cbn [fst].
  case_bool_decide; case_decide; done.
Qed.

Lemma foldl_rank_spec target (ops : OperatorMap) (acc : list EntryPair) :
  priority_queue.heap_upto fst (length acc) acc ->
  let rankings := foldl (rank target) acc ops in
  priority_queue.heap_upto fst (length rankings) rankings /\
  rankings ≡ₚ acc ++ (entry target <$> candidates target ops).
Proof.
  revert acc. induction ops as [|[sym bucket] ops IH]; intros acc Hheap.
  - cbn. split; [done|]. by rewrite app_nil_r.
  - cbn [foldl]. rewrite rank_cases.
    unfold candidates. cbn [fmap list_fmap fst]. rewrite filter_cons.
    destruct (decide (within_cap target sym)) as [Hin|Hout]; [|by apply IH].
    destruct (emplace_spec cmp fst cmp_key (entry target sym) acc Hheap)
      as [Hperm Hheap'].
    destruct (IH _ Hheap') as [Hh Hp]. split; [done|].
    rewrite Hp, Hperm. cbn [fmap list_fmap].
    by rewrite <- app_assoc.
Qed.

Lemma ascending_entries target (l : list EntryPair) :
  Forall (fun e => e.1 = Z.of_N (edit_dist target e.2)) l ->
  priority_queue.ascending fst l ->
  StronglySorted
    (fun a b => (edit_dist target a <= edit_dist target b)%N) (l.*2).
Proof.
  intros Hall Hsorted. induction Hsorted as [|e l Hs IH Hle]; [constructor|].
  apply Forall_cons in Hall as [He Hall]. cbn. constructor; [by apply IH|].
  apply Forall_fmap, Forall_forall. intros e' Hin. cbn.
  rewrite Forall_forall in Hle, Hall.
  specialize (Hle e' Hin). specialize (Hall e' Hin). lia.
Qed.

(** C5, as amended: the symbols that [findSimilarOperators] returns are
    exactly the registered symbols whose bounded distance from the
    target is at most 2, each as often as it is registered as a key;
    none when there is no such symbol; and they come in ascending
    order of distance. *)
Theorem similar_operators_ranked (target : Symbol)
    (r : OperatorRegistry.t) :
  exists syms,
    result (suggestions target r) = inr syms /\
    syms ≡ₚ candidates target (operators (flush r)) /\
    (forall s, s ∈ syms ->
       s ∈ (operators (flush r)).*1 /\
       (ComputeEditDistance (toQualString target) (toQualString s) 2 <= 2)%N) /\
    (candidates target (operators (flush r)) = [] -> syms = []) /\
    StronglySorted
      (fun a b => (edit_dist target a <= edit_dist target b)%N) syms.
Proof.
  unfold suggestions. rewrite findSimilarOperators_run.
  cbn [result].
  destruct (foldl_rank_spec target (operators (flush r)) [])
    as [Hheap Hperm]; [intros i Hi; cbn in Hi; lia|].
  cbn [app] in Hperm.
  destruct (drain_spec cmp fst cmp_key snd _ Hheap)
    as (l & -> & Hl & Hsorted).
  assert (Hsyms : l.*2 ≡ₚ candidates target (operators (flush r))).
  { rewrite Hl, Hperm, <- list_fmap_compose.
    by rewrite <- (list_fmap_id (candidates _ _)) at 2. }
  exists (l.*2). split; [done|]. split; [done|]. split; [|split].
  - intros s Hs. rewrite Hsyms in Hs.
    unfold candidates in Hs. apply list_elem_of_filter in Hs as [Hcap Hin].
    done.
  - intros Hnone. rewrite Hnone in Hsyms.
    by apply Permutation_nil_r in Hsyms.
  - apply ascending_entries; [|done].
    rewrite Hl, Hperm. apply Forall_fmap, Forall_forall. by intros s _.
Qed.

(** Candidates at one distance are their own stable sort. *)
Lemma tied_stable_by_distance target (syms : list Symbol) (dist : N) :
  Forall (fun s => edit_dist target s = dist) syms ->
  stable_by_distance target syms = syms.
Proof.
  unfold stable_by_distance. induction 1 as [|s syms Hs Hall IH]; [done|].
  cbn [foldr]. rewrite IH. destruct Hall as [|s' syms Hs' _]; [done|].
  cbn [insert_by_distance]. rewrite Hs, Hs'.
  by rewrite bool_decide_eq_true_2.
Qed.

(** Whatever the order in which four registered symbols at one distance
    within the cap are discovered, the second and the third are returned
    in the opposite order. *)
Lemma four_tied_candidates target r s1 s2 s3 s4 (b1 b2 b3 b4 : list OpPtr) :
  operators (flush r) = [(s1, b1); (s2, b2); (s3, b3); (s4, b4)] ->
  Forall (fun s => within_cap target s /\
                   edit_dist target s = edit_dist target s1)
    [s1; s2; s3; s4] ->
  result (suggestions target r) = inr [s1; s3; s2; s4] /\
  (s2 <> s3 ->
   result (suggestions target r) <>
   inr (stable_by_distance target
          (candidates target (operators (flush r))))).
Proof.
  intros Hops Hall.
  assert (Hres : result (suggestions target r) = inr [s1; s3; s2; s4]).
  { unfold suggestions. rewrite findSimilarOperators_run, Hops.
    cbn [result foldl]. rewrite !rank_cases.
    rewrite !Forall_cons in Hall.
    destruct Hall as ([Hc1 _] & [Hc2 Hd2] & [Hc3 Hd3] & [Hc4 Hd4] & _).
    rewrite !decide_True by done. f_equal.
    apply (four_ties_drain cmp snd (entry target s1) (entry target s2)
             (entry target s3) (entry target s4)).
    intros x y Hx Hy. unfold cmp. apply bool_decide_eq_false.
    assert (Hkey : forall e, e ∈ [entry target s1; entry target s2;
                                  entry target s3; entry target s4] ->
              e.1 = Z.of_N (edit_dist target s1)).
    { intros e He. rewrite !elem_of_cons in He.
      destruct He as [->|[->|[->|[->|He]]]]; cbn; try congruence.
      by apply elem_of_nil in He. }
    rewrite (Hkey x Hx), (Hkey y Hy). lia. }
  split; [done|]. intros Hne. rewrite Hres, Hops.
  assert (Hcand : candidates target [(s1, b1); (s2, b2); (s3, b3); (s4, b4)]
                  = [s1; s2; s3; s4]).
  { unfold candidates. cbn [fmap list_fmap fst].
    rewrite !Forall_cons in Hall.
    destruct Hall as ([Hc1 _] & [Hc2 _] & [Hc3 _] & [Hc4 _] & _).
    by rewrite !filter_cons, filter_nil, !decide_True. }
  rewrite Hcand, (tied_stable_by_distance target _ (edit_dist target s1)).
  - congruence.
  - eapply Forall_impl; [exact Hall|]. by intros s [_ ?].
Qed.
End similar.

(** ** The literal cache *)

Section literal_cache.
Context `{Collaborators}.
Local Abbreviation register := registerOperator.
Import OperatorRegistry.

Implicit Types (r : OperatorRegistry.t) (p : OpPtr) (q : Read).

Lemma read_keeps_cached q r a op :
  operators_by_sig_literal r !! a = Some op ->
  operators_by_sig_literal (final (read q r)) !! a = Some op.
Proof.
  intros Hc.
  destruct q as [name|signature|input|  |full_name];
    unfold read; rewrite bind_ret_run; cbn [final].
  - unfold getAllOperatorsFor. rewrite getOperators_run. cbn [final].
    by rewrite flush_literal.
  - unfold getOperatorForLiteral. rewrite lookupByLiteral_run.
    destruct (operators_by_sig_literal r !! address signature) eqn:Hs;
      [cbn [final]; by rewrite flush_literal|].
    destruct (parseSchema (chars signature));
      [cbn [final]; by rewrite flush_literal|].
    destruct (operators_by_sig (flush r) !! _);
      cbn [final]; [|by rewrite flush_literal].
    unfold emplace_literal. cbn [operators_by_sig_literal].
    rewrite lookup_insert_ne, flush_literal; [done|].
    intros Heq. rewrite Heq in Hs. congruence.
  - unfold findSimilarOperators. rewrite findSimilarOperators_run.
    cbn [final]. by rewrite flush_literal.
  - unfold getAllOperators. rewrite getAllOperators_run.
    cbn [final]. by rewrite flush_literal.
  - rewrite findOperatorFor_run. cbn [final]. by rewrite flush_literal.
Qed.

Lemma steps_keep_cached r r' a op :
  rtc step r r' ->
  operators_by_sig_literal r !! a = Some op ->
  operators_by_sig_literal r' !! a = Some op.
Proof.
  induction 1 as [r|r r1 r' Hstep _ IH]; [done|]. intros Hc. apply IH.
  destruct Hstep as [op' r|q r]; [|by apply read_keeps_cached].
  by destruct (registerOperator_cases op' r)
    as [[_ (msg & -> & _)]|[_ ->]].
Qed.

(** C7: after a successful literal lookup, a second lookup with the same
    address returns the very same pointer, makes no call to the parser
    and leaves the registry as it is; and after any further calls, a
    lookup with that address still returns that pointer without a call
    to the parser. *)
Theorem literal_lookup_hit (signature again : CharPtr)
    (r : OperatorRegistry.t) (op : OpPtr) :
  result (getOperatorForLiteral signature r) = inr op ->
  address again = address signature ->
  let r1 := final (getOperatorForLiteral signature r) in
  getOperatorForLiteral again r1 = MkOutcome [] (inr op) r1 /\
  (forall r', rtc step r1 r' ->
     calls (getOperatorForLiteral again r') = [] /\
     result (getOperatorForLiteral again r') = inr op).
Proof.
  intros Hok Haddr r1.
  destruct (literal_lookup_cached _ _ _ Hok) as [Hc Hq]. fold r1 in Hc, Hq.
  unfold getOperatorForLiteral at 1 2 3. split.
  - by rewrite lookupByLiteral_run, Haddr, Hc, (flush_drained r1 Hq).
  - intros r' Hsteps.
    by rewrite lookupByLiteral_run, Haddr, (steps_keep_cached _ _ _ _ Hsteps Hc).
Qed.
End literal_cache.

(** ** The properties on concrete registries *)

Module Examples.
Import Concrete.

Lemma literal_lookup_on_miss_example :
  let signature := literal_at 4096 aten_add_Tensor_literal in
  OperatorRegistry.operators_by_sig_literal two_overloads
    !! address signature = None /\
  parseSchema (chars signature) = inr aten_add_Tensor /\
  result (getOperatorForLiteral signature two_overloads) = inr first_ptr.
Proof.
  intros signature. split; [reflexivity|]. split; [reflexivity|].
  destruct (literal_lookup_on_miss signature two_overloads aten_add_Tensor
              eq_refl eq_refl) as [_ Hfound].
  vm_compute in Hfound. apply Hfound.
Defined.

Lemma operators_for_in_registration_order_example :
  history two_overloads [first_ptr; second_ptr] /\
  result (getAllOperatorsFor "aten::add" two_overloads)
    = inr [first_ptr; second_ptr].
Proof.
  assert (Hh : history two_overloads [first_ptr; second_ptr]).
  { apply (history_register add_Scalar
             (final (registerOperator add_Tensor OperatorRegistry.empty))
             [first_ptr]); [|reflexivity].
    apply (history_register add_Tensor OperatorRegistry.empty []);
      [apply history_empty | reflexivity]. }
  split; [exact Hh|].
  destruct (operators_for_in_registration_order two_overloads
              [first_ptr; second_ptr] "aten::add" Hh) as [Hops _].
  vm_compute in Hops. vm_compute. exact Hops.
Defined.

Lemma literal_lookup_hit_example :
  let signature := literal_at 4096 aten_add_Tensor_literal in
  let again := literal_at 4096 aten_add_Tensor_literal in
  let r1 := final (getOperatorForLiteral signature two_overloads) in
  result (getOperatorForLiteral signature two_overloads) = inr first_ptr /\
  getOperatorForLiteral again r1 = MkOutcome [] (inr first_ptr) r1.
Proof.
  intros signature again r1. split; [reflexivity|].
  apply (literal_lookup_hit signature again two_overloads first_ptr
           eq_refl eq_refl).
Defined.

Lemma reads_in_either_order_example :
  let q1 := read_operator_for_literal
              (literal_at 4096 aten_add_Tensor_literal) in
  let q2 := read_operator_for_literal
              (literal_at 8192 aten_add_Scalar_literal) in
  same_literal q1 q2 /\
  final (read q2 (final (read q1 two_overloads))) =
  final (read q1 (final (read q2 two_overloads))).
Proof.
  intros q1 q2.
  assert (Hsame : same_literal q1 q2) by (intros Haddr; discriminate Haddr).
  split; [exact Hsame|].
  apply (reads_in_either_order q1 q2 two_overloads), Hsame.
Defined.

Lemma other_namespace_example :
  is_varret (schema custom_op) = true /\
  (ns (fromQualString (name (schema custom_op))) ∉ required_namespaces) /\
  printerHasSpecialCaseFor (fromQualString (name (schema custom_op))) = true.
Proof.
  assert (Hns : ns (fromQualString (name (schema custom_op)))
                ∉ required_namespaces).
  { apply (bool_decide_unpack _). vm_compute. exact I. }
  split; [reflexivity|]. split; [exact Hns|].
  apply (other_namespace_passes_printer_check custom_op
           OperatorRegistry.empty eq_refl Hns).
Defined.

(** The same schema registered twice, with a read in between. *)
Lemma same_signature_example :
  let r1 := final (registerOperator add_Tensor OperatorRegistry.empty) in
  let r' := final (read read_all r1) in
  let r2 := final (registerOperator add_Tensor r') in
  rtc step r1 r' /\
  OperatorRegistry.operators_by_sig (OperatorRegistry.flush r2)
    !! canonicalSchemaString aten_add_Tensor
    = Some {| object_id := 1; get := add_Tensor |}.
Proof.
  intros r1 r' r2.
  assert (Hsteps : rtc step r1 r') by apply rtc_once, step_read.
  split; [exact Hsteps|].
  apply (same_signature_later_wins add_Tensor add_Tensor
           OperatorRegistry.empty r' eq_refl eq_refl Hsteps eq_refl).
Defined.

(** C5, as it is worded, fails: with four registered symbols at distance
    1 from the target, discovered in the order ada, adb, adc, add, the
    heap yields ada, adc, adb, add, which is not the stable sort of the
    candidates by distance. *)
Lemma similar_ties_leave_discovery_order :
  let target : Symbol := "aten::ad" in
  let discovered :=
    OperatorRegistry.candidates target
      (OperatorRegistry.operators (OperatorRegistry.flush four_ties)) in
  discovered = ["aten::ada"; "aten::adb"; "aten::adc"; "aten::add"] /\
  Forall (fun s => OperatorRegistry.edit_dist target s = 1%N) discovered /\
  result (findSimilarOperators target four_ties)
    = inr ["aten::ada"; "aten::adc"; "aten::adb"; "aten::add"] /\
  result (findSimilarOperators target four_ties)
    <> inr (OperatorRegistry.stable_by_distance target discovered).
Proof.
  intros target discovered.
  split; [by vm_compute|]. split.
  { apply (bool_decide_unpack _). by vm_compute. }
  split; [by vm_compute|].
  intros Heq. vm_compute in Heq. congruence.
Qed.
End Examples.

(** ** The indices of a reachable registry *)

Section index_facts.
Context `{Collaborators}.
Local Abbreviation register := registerOperator.
Import OperatorRegistry.

Implicit Types (r : OperatorRegistry.t) (p : OpPtr) (s : Symbol) (q : Read)
  (m : OperatorMap).

Lemma latest_app k (l1 l2 : list OpPtr) :
  latest k (l1 ++ l2) =
  match latest k l2 with Some p => Some p | None => latest k l1 end.
Proof. unfold latest. by rewrite filter_app, last_app. Qed.

Lemma latest_elem_of k (l : list OpPtr) p :
  latest k l = Some p -> p ∈ l /\ canonicalSchemaString (schema (get p)) = k.
Proof.
  unfold latest. intros Hl. apply last_Some_elem_of in Hl.
  by apply list_elem_of_filter in Hl as [? ?].
Qed.

Lemma all_buckets_push_back_at s p m :
  all_buckets (push_back_at s p m) ≡ₚ all_buckets m ++ [p].
Proof.
  unfold all_buckets. induction m as [|[k ops] m IH]; [done|].
  cbn [push_back_at]. destruct (decide (k = s)) as [->|Hk];
    cbn [fmap list_fmap snd concat].
  - rewrite <- !app_assoc. f_equiv. apply Permutation_app_comm.
  - change (list_fmap _ _ snd ?l) with (l.*2). by rewrite IH, app_assoc.
Qed.

Lemma elem_of_push_back_at s p m s' b' :
  (s', b') ∈ push_back_at s p m ->
  (s', b') ∈ m \/
  (s' = s /\ exists b0, b' = b0 ++ [p] /\ (b0 = [] \/ (s, b0) ∈ m)).
Proof.
  induction m as [|[k ops] m IH]; cbn [push_back_at].
  - intros Hin. apply list_elem_of_singleton in Hin. injection Hin as -> ->.
    right. split; [done|]. exists []. by split; [|left].
  - destruct (decide (k = s)) as [->|Hk].
    + intros [Hin|Hin]%elem_of_cons.
      * injection Hin as -> ->. right. split; [done|]. exists ops.
        split; [done|]. right. by left.
      * left. by right.
    + intros [Hin|Hin]%elem_of_cons.
      * left. injection Hin as -> ->. by left.
      * destruct (IH Hin) as [?|(-> & b0 & -> & [->|?])].
        -- left. by right.
        -- right. split; [done|]. exists []. by split; [|left].
        -- right. split; [done|]. exists b0. split; [done|]. right. by right.
Qed.

Lemma index_operator_indexed r ix p :
  indexed_as r ix -> indexed_as (index_operator r p) (ix ++ [p]).
Proof.
  intros (Hsig & Hlit & Hall & Hb). split; [|split; [|split]].
  - intros k. cbn [index_operator operators_by_sig]. rewrite latest_app.
    unfold latest at 1. rewrite filter_cons, filter_nil.
    destruct (decide (same_canonical k p)) as [Hk|Hk]; cbn.
    + unfold same_canonical in Hk. rewrite Hk. apply lookup_insert_eq.
    + rewrite lookup_insert_ne by done. apply Hsig.
  - intros a p' Hc. apply elem_of_app. left. by apply (Hlit a).
  - cbn [index_operator operators]. by rewrite all_buckets_push_back_at, Hall.
  - intros s b Hin. cbn [index_operator operators] in Hin.
    apply elem_of_push_back_at in Hin as [Hin|(-> & b0 & -> & Hb0)];
      [by apply Hb|].
    split; [by destruct b0|].
    intros p' [Hp'|Hp']%elem_of_app.
    + destruct Hb0 as [->|Hin]; [by apply elem_of_nil in Hp'|].
      by apply (Hb _ _ Hin).
    + apply list_elem_of_singleton in Hp'. by subst.
Qed.

Lemma foldl_index_indexed (l : list OpPtr) r ix :
  indexed_as r ix -> indexed_as (foldl index_operator r l) (ix ++ l).
Proof.
  revert r ix. induction l as [|p l IH]; intros r ix Hix.
  - by rewrite app_nil_r.
  - cbn [foldl]. rewrite (cons_middle p ix l), app_assoc.
    by apply IH, index_operator_indexed.
Qed.

Lemma flush_indexed r ix :
  indexed_as r ix -> indexed_as (flush r) (ix ++ to_register r).
Proof.
  intros Hix. by apply (foldl_index_indexed (to_register r)) in Hix.
Qed.

Lemma emplace_literal_indexed r ix sig op k :
  indexed_as r ix -> operators_by_sig r !! k = Some op ->
  indexed_as (emplace_literal sig op r) ix.
Proof.
  intros (Hsig & Hlit & Hall & Hb) Hop. split; [done|]. split; [|done].
  intros a p. cbn [emplace_literal operators_by_sig_literal].
  destruct (decide (address sig = a)) as [<-|Hne].
  - rewrite lookup_insert_eq. intros [= <-].
    rewrite Hsig in Hop. by apply latest_elem_of in Hop as [? _].
  - rewrite lookup_insert_ne by done. apply Hlit.
Qed.

(** What a read leaves behind. *)
Lemma read_final_cases q r :
  final (read q r) = flush r \/
  exists sig op parsed,
    q = read_operator_for_literal sig /\
    operators_by_sig_literal r !! address sig = None /\
    parseSchema (chars sig) = inr parsed /\
    operators_by_sig (flush r) !! canonicalSchemaString parsed = Some op /\
    final (read q r) = emplace_literal sig op (flush r).
Proof.
  destruct q as [name|sig|input|  |full_name];
    unfold read; rewrite bind_ret_run; cbn [final].
  - unfold getAllOperatorsFor. rewrite getOperators_run. by left.
  - unfold getOperatorForLiteral. rewrite lookupByLiteral_run.
    destruct (operators_by_sig_literal r !! address sig) eqn:Hc; [by left|].
    destruct (parseSchema (chars sig)) as [e|parsed] eqn:Hp; [by left|].
    destruct (operators_by_sig (flush r) !! _) as [op|] eqn:Hs; [|by left].
    right. by exists sig, op, parsed.
  - by left.
  - by left.
  - rewrite findOperatorFor_run. by left.
Qed.

Lemma history_indexed r ops :
  history r ops ->
  exists ix, ops = ix ++ to_register r /\ indexed_as r ix.
Proof.
  induction 1 as [|op r ops Hh (ix & Hops & Hix) Hok
                  |op r ops e Hh IH Herr|q r ops Hh (ix & Hops & Hix)].
  - exists []. split; [done|]. split; [done|]. split; [done|].
    split; [done|]. intros s b Hin. by apply elem_of_nil in Hin.
  - rewrite (registerOperator_final_ok _ _ Hok). exists ix. split.
    + rewrite enqueued_to_register, Hops. by rewrite app_assoc.
    + done.
  - by rewrite (registerOperator_final_error _ _ _ Herr).
  - exists ops. pose proof (flush_indexed r ix Hix) as Hf.
    rewrite <- Hops in Hf.
    destruct (read_final_cases q r)
      as [->|(sig & op & parsed & _ & _ & _ & Hs & ->)].
    + by rewrite app_nil_r.
    + split; [by rewrite app_nil_r|].
      by apply (emplace_literal_indexed _ _ _ _ _ Hf Hs).
Qed.

(** After a flush the indices of a reachable registry hold all registered
    operators. *)
Lemma history_flush_indexed r ops :
  history r ops -> indexed_as (flush r) ops.
Proof.
  intros (ix & -> & Hix)%history_indexed. by apply flush_indexed.
Qed.
End index_facts.

(** ** Further properties of the registry *)

Section registry_extras.
Context `{Collaborators}.
Local Abbreviation register := registerOperator.
Local Abbreviation enumerate := getAllOperators.
Local Abbreviation suggestions := findSimilarOperators.
Import OperatorRegistry.

Implicit Types (r : OperatorRegistry.t) (p : OpPtr) (s : Symbol) (q : Read)
  (m : OperatorMap).

Lemma foldl_values (m : OperatorMap) (values : list OpPtr) :
  foldl (fun values kv => values ++ kv.2) values m = values ++ all_buckets m.
Proof.
  unfold all_buckets. revert values.
  induction m as [|[k b] m IH]; intros values; cbn [foldl].
  - by rewrite app_nil_r.
  - rewrite IH. cbn. by rewrite app_assoc.
Qed.

Lemma find_not_key s m : s ∉ m.*1 -> find s m = None.
Proof.
  induction m as [|[k b] m IH]; [done|]. cbn. intros Hs.
  apply not_elem_of_cons in Hs as [Hk Hs].
  rewrite decide_False by done. by apply IH.
Qed.

Lemma find_elem_of s m b : find s m = Some b -> (s, b) ∈ m.
Proof.
  induction m as [|[k b'] m IH]; [done|]. cbn.
  destruct (decide (k = s)) as [->|?].
  - intros [= ->]. by left.
  - intros ?. right. auto.
Qed.

Lemma key_find s m : s ∈ m.*1 -> exists b, find s m = Some b.
Proof.
  induction m as [|[k b'] m IH]; cbn; [by intros ?%elem_of_nil|].
  destruct (decide (k = s)) as [->|?]; [by eauto|].
  intros [?|?]%elem_of_cons; [done|auto].
Qed.

Lemma filter_all_buckets s m :
  NoDup m.*1 ->
  (forall k b, (k, b) ∈ m -> forall p, p ∈ b -> symbol_of p = k) ->
  filter (fun p => symbol_is (symbol_of p) s) (all_buckets m) = bucket s m.
Proof.
  unfold all_buckets, bucket.
  induction m as [|[k b] m IH]; intros Hnd Hsym; [done|].
  cbn [fmap list_fmap fst snd concat find] in *.
  apply NoDup_cons in Hnd as [Hk Hnd].
  rewrite filter_app, IH; [|done|by intros ?? ?; apply Hsym; right].
  assert (Hb : forall p, p ∈ b -> symbol_of p = k)
    by (apply (Hsym k b); by left).
  destruct (decide (k = s)) as [->|Hne].
  - rewrite (find_not_key s m Hk). cbn. rewrite app_nil_r.
    clear -Hb. induction b as [|p b IH]; [done|].
    rewrite filter_cons, decide_True by (apply Hb; by left).
    f_equal. apply IH. intros ??. apply Hb. by right.
  - assert (Hnone : filter (fun p => symbol_is (symbol_of p) s) b = []).
    { clear -Hb Hne. induction b as [|p b IH]; [done|].
      rewrite filter_cons, decide_False.
      - apply IH. intros ??. apply Hb. by right.
      - unfold symbol_is. rewrite (Hb p) by (by left). done. }
    by rewrite Hnone.
Qed.

Lemma history_NoDup r ops : history r ops -> NoDup ops.
Proof.
  intros Hh. apply NoDup_alt. intros i j p Hi Hj.
  rewrite <- (history_object_ids r ops Hh i p Hi).
  by rewrite <- (history_object_ids r ops Hh j p Hj).
Qed.

(** X1: in a reachable registry [getAllOperators] returns every
    registered operator exactly once, and the operators of one symbol in
    the order of their registration. *)
Theorem enumeration_lists_every_operator r ops :
  history r ops ->
  exists all,
    result (enumerate r) = inr all /\
    all ≡ₚ ops /\ NoDup all /\
    forall s, filter (fun p => symbol_is (symbol_of p) s) all =
              filter (fun p => symbol_is (symbol_of p) s) ops.
Proof.
  intros Hh. unfold enumerate. rewrite getAllOperators_run.
  cbn [result]. rewrite foldl_values. cbn [app].
  destruct (history_flush_indexed r ops Hh) as (_ & _ & Hall & Hb).
  eexists. split; [done|]. split; [done|]. split.
  - rewrite Hall. by apply (history_NoDup r).
  - intros s. rewrite filter_all_buckets.
    + destruct (history_held r ops Hh) as [_ <-]. apply bucket_flush.
    + apply flush_keys_NoDup. by apply (history_keys_NoDup r ops).
    + intros k b Hin. by apply (Hb k b).
Qed.

(** X2: in a reachable registry a literal lookup that misses the cache
    returns the operator registered last among those whose canonical
    string is that of the parsed signature, and throws the not-found
    error exactly when no registered operator has that canonical
    string. *)
Theorem literal_lookup_returns_latest r ops sig parsed :
  history r ops ->
  operators_by_sig_literal r !! address sig = None ->
  parseSchema (chars sig) = inr parsed ->
  result (getOperatorForLiteral sig r) =
  match latest (canonicalSchemaString parsed) ops with
  | Some p => inr p
  | None => inl (not_found_message sig)
  end.
Proof.
  intros Hh Hmiss Hparse. unfold getOperatorForLiteral.
  rewrite lookupByLiteral_run, Hmiss, Hparse.
  destruct (history_flush_indexed r ops Hh) as (-> & _).
  by destruct (latest _ ops).
Qed.

Lemma first_overload_elem_of (l : list OpPtr) o p :
  first_overload l o = Some p -> p ∈ l.
Proof.
  induction l as [|x l IH]; [done|]. cbn. case_decide.
  - intros [= ->]. by left.
  - intros ?. right. auto.
Qed.

(** X3: every operator that a read of a reachable registry returns is
    one that was registered. *)
Theorem reads_return_registered_operators r ops q a :
  history r ops -> result (read q r) = inr a ->
  forall p, p ∈ answer_operators a -> p ∈ ops.
Proof.
  intros Hh. destruct (history_held r ops Hh) as [_ Hheld].
  destruct (history_flush_indexed r ops Hh) as (Hsig & _ & Hall & _).
  destruct (history_indexed r ops Hh) as (ix & Hops & (_ & Hlit & _)).
  assert (Hbucket : forall s p, p ∈ bucket s (operators (flush r)) -> p ∈ ops).
  { intros s p. rewrite bucket_flush. fold (held s r). rewrite Hheld.
    by intros [_ ?]%list_elem_of_filter. }
  destruct q as [name|sig|input|  |full_name];
    unfold read; rewrite bind_ret_run; cbn [result].
  - unfold getAllOperatorsFor. rewrite getOperators_run. cbn.
    intros [= <-] p. apply Hbucket.
  - unfold getOperatorForLiteral. rewrite lookupByLiteral_run.
    destruct (operators_by_sig_literal r !! address sig) as [op|] eqn:Hc.
    { cbn. intros [= <-] p ->%list_elem_of_singleton.
      rewrite Hops. apply elem_of_app. left. by apply (Hlit _ _ Hc). }
    destruct (parseSchema (chars sig)) as [e|parsed]; [done|].
    rewrite Hsig.
    destruct (latest _ ops) as [op|] eqn:Hl; [|done].
    cbn. intros [= <-] p ->%list_elem_of_singleton.
    by apply latest_elem_of in Hl as [? _].
  - cbn. intros [= <-] p Hp. by apply elem_of_nil in Hp.
  - unfold enumerate. rewrite getAllOperators_run. cbn [result sum_map].
    rewrite foldl_values. cbn. intros [= <-] p Hp. by rewrite <- Hall.
  - rewrite findOperatorFor_run. cbn.
    intros [= <-] p Hp.
    destruct (first_overload _ _) as [op|] eqn:Hf; cbn in Hp;
      [|by apply elem_of_nil in Hp].
    apply list_elem_of_singleton in Hp as ->.
    eapply Hbucket, first_overload_elem_of, Hf.
Qed.


Lemma suggestions_perm target r :
  exists syms,
    result (suggestions target r) = inr syms /\
    syms ≡ₚ candidates target (operators (flush r)).
Proof.
  unfold suggestions. rewrite findSimilarOperators_run. cbn [result].
  destruct (foldl_rank_spec target (operators (flush r)) [])
    as [Hheap Hperm]; [intros i Hi; cbn in Hi; lia|].
  cbn [app] in Hperm.
  destruct (drain_spec cmp fst cmp_key snd _ Hheap) as (l & -> & Hl & _).
  exists (l.*2). split; [done|].
  rewrite Hl, Hperm, <- list_fmap_compose.
  by rewrite <- (list_fmap_id (candidates _ _)) at 2.
Qed.

(** X4: in a reachable registry [findSimilarOperators] suggests no
    symbol twice, and every suggested symbol is the symbol of a
    registered operator, so that [getAllOperatorsFor] on it is not
    empty. *)
Theorem suggestions_are_registered_symbols r ops target syms :
  history r ops ->
  result (suggestions target r) = inr syms ->
  NoDup syms /\
  forall s, s ∈ syms ->
    exists p, p ∈ ops /\ symbol_of p = s /\
              result (getAllOperatorsFor s r) <> inr [].
Proof.
  intros Hh Hres.
  destruct (suggestions_perm target r) as (syms' & Hres' & Hperm).
  rewrite Hres in Hres'. injection Hres' as <-.
  destruct (history_flush_indexed r ops Hh) as (_ & _ & Hall & Hb).
  split.
  - rewrite Hperm. apply NoDup_filter, flush_keys_NoDup.
    by apply (history_keys_NoDup r ops).
  - intros s Hs. rewrite Hperm in Hs.
    apply list_elem_of_filter in Hs as [_ Hkey].
    apply key_find in Hkey as [b Hfind].
    destruct (Hb s b (find_elem_of _ _ _ Hfind)) as [Hne Hsym].
    destruct b as [|p b]; [done|]. exists p. split; [|split].
    + rewrite <- Hall. unfold all_buckets. apply list_elem_of_In, in_concat.
      exists (p :: b). split; [|by left].
      apply list_elem_of_In, list_elem_of_fmap.
      exists (s, p :: b). split; [done|]. by apply find_elem_of.
    + apply Hsym. by left.
    + unfold getAllOperatorsFor. rewrite getOperators_run. cbn [result].
      unfold bucket. by rewrite Hfind.
Qed.

(** X5: whatever is called later, the sequence that
    [getAllOperatorsFor] returns for a symbol only grows at its end. *)
Theorem buckets_only_grow r r' s l :
  rtc step r r' ->
  result (getAllOperatorsFor s r) = inr l ->
  exists more, result (getAllOperatorsFor s r') = inr (l ++ more).
Proof.
  intros Hsteps. rewrite !getAllOperatorsFor_held. intros [= <-].
  destruct (steps_held s r r' Hsteps) as [_ [more ->]]. by exists more.
Qed.

Lemma first_overload_app (l more : list OpPtr) o p :
  first_overload l o = Some p -> first_overload (l ++ more) o = Some p.
Proof.
  induction l as [|x l IH]; [done|]. cbn. case_decide; [done|]. apply IH.
Qed.

Lemma first_overload_app_None (l more : list OpPtr) o :
  first_overload l o = None ->
  first_overload (l ++ more) o = first_overload more o.
Proof.
  induction l as [|x l IH]; [done|]. cbn. case_decide; [done|]. apply IH.
Qed.

Lemma findOperatorFor_held full_name r :
  result (findOperatorFor full_name r) =
  inr (first_overload (held (fromQualString (c10.name full_name)) r)
         (c10.overload_name full_name)).
Proof.
  rewrite findOperatorFor_run. cbn [result]. by rewrite bucket_flush.
Qed.

(** X6: an operator that [findOperatorFor] finds for a full name is
    found for it after any later calls: a later registration does not
    shadow it. *)
Theorem found_operator_stays_found r r' full_name p :
  rtc step r r' ->
  result (findOperatorFor full_name r) = inr (Some p) ->
  result (findOperatorFor full_name r') = inr (Some p).
Proof.
  intros Hsteps. rewrite !findOperatorFor_held. intros [= Hfound].
  destruct (steps_held (fromQualString (c10.name full_name)) r r' Hsteps)
    as [_ [more ->]].
  by rewrite (first_overload_app _ _ _ _ Hfound).
Qed.

(** X7: in a reachable registry [findOperatorFor] returns the operator
    registered first among those with the symbol of the name and the
    overload name, and nothing when there is none. *)
Theorem find_operator_returns_earliest r ops full_name :
  history r ops ->
  result (findOperatorFor full_name r) =
  inr (head (filter
         (fun p => symbol_is (symbol_of p)
                     (fromQualString (c10.name full_name)) /\
                   overload_name (schema (get p)) =
                     c10.overload_name full_name) ops)).
Proof.
  intros Hh. rewrite findOperatorFor_held.
  destruct (history_held r ops Hh) as [_ ->]. f_equal. clear Hh.
  induction ops as [|p ops IH]; [done|].
  rewrite !filter_cons.
  destruct (decide (symbol_is (symbol_of p) _)) as [Hs|Hs].
  - cbn [first_overload].
    destruct (decide (overload_name (schema (get p)) = _)) as [Ho|Ho].
    + by rewrite decide_True by (by split).
    + rewrite decide_False by (by intros [_ ?]). apply IH.
  - rewrite decide_False by (by intros [? _]). apply IH.
Qed.

(** X8: after a successful registration the next reads see the
    operator: it is the last of its symbol's sequence and other symbols'
    sequences are unchanged; [findOperatorFor] on its full name returns
    what it returned before, or the new operator when it returned
    nothing; a literal lookup of a signature with its canonical string,
    at an address not cached, returns it. *)
Theorem registered_operator_is_found op r :
  result (register op r) = inr tt ->
  let r' := final (register op r) in
  let ptr := {| object_id := allocated r; get := op |} in
  (forall s, exists before,
     result (getAllOperatorsFor s r) = inr before /\
     result (getAllOperatorsFor s r') =
       inr (before ++ if decide (symbol_of ptr = s) then [ptr] else [])) /\
  (exists found,
     result (findOperatorFor (full_name_of op) r) = inr found /\
     result (findOperatorFor (full_name_of op) r') =
       inr (Some (default ptr found))) /\
  (forall sig parsed,
     operators_by_sig_literal r !! address sig = None ->
     parseSchema (chars sig) = inr parsed ->
     canonicalSchemaString parsed = canonicalSchemaString (schema op) ->
     result (getOperatorForLiteral sig r') = inr ptr).
Proof.
  intros Hok r' ptr.
  assert (Hr' : r' = enqueued op r) by apply (registerOperator_final_ok _ _ Hok).
  assert (Hheld : forall s, held s r' =
            held s r ++ if decide (symbol_of ptr = s) then [ptr] else []).
  { intros s. rewrite Hr', held_enqueued, filter_cons, filter_nil.
    by do 2 case_decide. }
  split; [|split].
  - intros s. exists (held s r). rewrite !getAllOperatorsFor_held.
    by rewrite Hheld.
  - eexists. split; [apply findOperatorFor_held|].
    rewrite findOperatorFor_held, Hheld. cbn [full_name_of c10.name c10.overload_name].
    rewrite decide_True by done.
    destruct (first_overload (held _ r) _) as [found|] eqn:Hf.
    + by rewrite (first_overload_app _ _ _ _ Hf).
    + rewrite (first_overload_app_None _ _ _ Hf). cbn.
      by rewrite decide_True.
  - intros sig parsed Hmiss Hparse Hcanon. unfold getOperatorForLiteral.
    rewrite lookupByLiteral_run, Hparse.
    assert (Hc : operators_by_sig_literal r' = operators_by_sig_literal r)
      by (by rewrite Hr').
    assert (Hs : operators_by_sig (flush r')
                   !! canonicalSchemaString (schema op) = Some ptr).
    { apply (by_sig_flush_last r' (to_register r) ptr). by rewrite Hr'. }
    by rewrite Hc, Hmiss, Hcanon, Hs.
Qed.

Lemma register_then_literal_lookup op r sig parsed :
  result (register op r) = inr tt ->
  operators_by_sig_literal r !! address sig = None ->
  parseSchema (chars sig) = inr parsed ->
  canonicalSchemaString parsed = canonicalSchemaString (schema op) ->
  result (getOperatorForLiteral sig (final (register op r))) =
  inr {| object_id := allocated r; get := op |}.
Proof.
  intros Hok Hmiss Hparse Hcanon.
  rewrite (registerOperator_final_ok _ _ Hok).
  unfold getOperatorForLiteral. rewrite lookupByLiteral_run, Hparse.
  change (operators_by_sig_literal (enqueued op r))
    with (operators_by_sig_literal r).
  rewrite Hmiss, Hcanon.
  pose proof (by_sig_flush_last (enqueued op r) (to_register r)
                {| object_id := allocated r; get := op |} eq_refl) as Hs.
  cbn [get] in Hs. by rewrite Hs.
Qed.

Lemma literal_result_registered r ops sig p :
  history r ops -> result (getOperatorForLiteral sig r) = inr p -> p ∈ ops.
Proof.
  intros Hh.
  destruct (history_flush_indexed r ops Hh) as (Hsig & _).
  destruct (history_indexed r ops Hh) as (ix & Hops & (_ & Hlit & _)).
  unfold getOperatorForLiteral. rewrite lookupByLiteral_run.
  destruct (operators_by_sig_literal r !! address sig) as [op|] eqn:Hc.
  { cbn. intros [= <-]. rewrite Hops. apply elem_of_app. left.
    by apply (Hlit _ _ Hc). }
  destruct (parseSchema (chars sig)) as [e|parsed]; [done|].
  rewrite Hsig. destruct (latest _ ops) as [op|] eqn:Hl; [|done].
  cbn. intros [= <-]. by apply latest_elem_of in Hl as [? _].
Qed.

(** X9: the literal cache is never refreshed.  Once an address is
    cached, registering another operator with the canonical string of the
    signature does not change what that address returns, while a lookup
    of that signature through an address not yet cached returns the new
    operator, a different object. *)
Theorem cached_literal_is_never_refreshed r ops sig fresh parsed old op :
  history r ops ->
  result (getOperatorForLiteral sig r) = inr old ->
  let r1 := final (getOperatorForLiteral sig r) in
  result (register op r1) = inr tt ->
  let r2 := final (register op r1) in
  let new := {| object_id := allocated r; get := op |} in
  parseSchema (chars fresh) = inr parsed ->
  canonicalSchemaString parsed = canonicalSchemaString (schema op) ->
  operators_by_sig_literal r2 !! address fresh = None ->
  result (getOperatorForLiteral sig r2) = inr old /\
  result (getOperatorForLiteral fresh r2) = inr new /\
  old <> new.
Proof.
  intros Hh Hold r1 Hok r2 new Hparse Hcanon Hfresh.
  destruct (literal_lookup_cached _ _ _ Hold) as [Hc _]. fold r1 in Hc.
  assert (Hr2 : r2 = enqueued op r1)
    by apply (registerOperator_final_ok _ _ Hok).
  assert (Halloc : allocated r1 = allocated r).
  { pose proof (read_run_state (read_operator_for_literal sig) r) as [Ha _].
    unfold read in Ha. rewrite bind_ret_run in Ha. exact Ha. }
  split; [|split].
  - unfold getOperatorForLiteral. rewrite lookupByLiteral_run.
    assert (Hc2 : operators_by_sig_literal r2 !! address sig = Some old)
      by (by rewrite Hr2).
    by rewrite Hc2.
  - subst new. rewrite <- Halloc.
    apply (register_then_literal_lookup op r1 fresh parsed Hok); [|done..].
    by rewrite Hr2 in Hfresh.
  - intros ->.
    pose proof (literal_result_registered r ops sig _ Hh Hold) as Hin.
    apply list_elem_of_lookup in Hin as [i Hi].
    pose proof (history_object_ids r ops Hh i _ Hi) as Hid.
    apply lookup_lt_Some in Hi.
    destruct (history_held r ops Hh) as [Hlen _]. cbn in Hid. lia.
Qed.

(** X10: a literal lookup that throws leaves the cache as it was,
    without an entry for the address; once an operator with the canonical
    string of the signature is registered, the lookup at the same address
    returns it. *)
Theorem failed_literal_lookup_is_not_cached r sig e :
  result (getOperatorForLiteral sig r) = inl e ->
  let r1 := final (getOperatorForLiteral sig r) in
  operators_by_sig_literal r1 = operators_by_sig_literal r /\
  operators_by_sig_literal r1 !! address sig = None /\
  forall op parsed,
    parseSchema (chars sig) = inr parsed ->
    canonicalSchemaString parsed = canonicalSchemaString (schema op) ->
    result (register op r1) = inr tt ->
    result (getOperatorForLiteral sig (final (register op r1))) =
    inr {| object_id := allocated r; get := op |}.
Proof.
  intros Herr r1.
  assert (Hr1 : r1 = flush r) by apply (literal_error_state _ _ _ Herr).
  assert (Hmiss : operators_by_sig_literal r !! address sig = None).
  { revert Herr. unfold getOperatorForLiteral. rewrite lookupByLiteral_run.
    by destruct (operators_by_sig_literal r !! address sig). }
  assert (Hc : operators_by_sig_literal r1 = operators_by_sig_literal r)
    by (by rewrite Hr1, flush_literal).
  split; [done|]. split; [by rewrite Hc|].
  intros op parsed Hparse Hcanon Hok.
  rewrite <- (flush_allocated r), <- Hr1.
  apply (register_then_literal_lookup op r1 sig parsed Hok); [|done..].
  by rewrite Hc.
Qed.

(** X11: the order of the checks of [registerOperator] for a
    variadic-return operator: a symbol that the printer does not
    special-case gives the printer error whatever the alias analysis kind
    is; the two alias analysis errors are only given for a symbol that the
    printer special-cases. *)
Theorem registerOperator_error_precedence op r :
  is_varret (schema op) = true ->
  let s := fromQualString (name (schema op)) in
  (printerHasSpecialCaseFor s = false ->
     result (register op r) = inl (missing_printer_message op)) /\
  (printerHasSpecialCaseFor s = true ->
   aliasAnalysisHasSpecialCaseFor s = false ->
   aliasAnalysisKind op = CONSERVATIVE ->
     result (register op r) = inl (missing_alias_message op)) /\
  (printerHasSpecialCaseFor s = true ->
   aliasAnalysisHasSpecialCaseFor s = true ->
   aliasAnalysisKind op = FROM_SCHEMA ->
     result (register op r) = inl (contradictory_alias_message op)).
Proof.
  intros Hvar s. unfold register, OperatorRegistry.registerOperator.
  rewrite Hvar. fold s. split; [|split].
  - intros ->. by run_monad.
  - intros -> -> ->. run_monad.
    repeat case_bool_decide; run_monad; cbn; congruence.
  - intros -> -> ->. run_monad.
    repeat case_bool_decide; run_monad; cbn; congruence.
Qed.
End registry_extras.

(** ** What the canonical string leaves out *)

Section canonical_extras.

Lemma map_entry_alike (args1 args2 : list Argument) :
  Forall2 printed_alike args1 args2 ->
  map argument_entry args1 = map argument_entry args2.
Proof.
  induction 1 as [|x y l1 l2 [Ht Hn] _ IH]; [done|].
  cbn. unfold argument_entry at 1 3. by rewrite Ht, Hn, IH.
Qed.

Lemma argument_entries_alike (args1 args2 : list Argument) :
  Forall2 printed_alike args1 args2 ->
  first_keyword args1 = first_keyword args2 ->
  argument_entries args1 = argument_entries args2.
Proof.
  induction 1 as [|x y l1 l2 [Ht Hn] Hrest IH]; [done|].
  assert (He : argument_entry x = argument_entry y)
    by (unfold argument_entry; by rewrite Ht, Hn).
  cbn [first_keyword argument_entries]. rewrite He.
  destruct (kwarg_only x), (kwarg_only y).
  - intros _. by rewrite (map_entry_alike l1 l2).
  - by destruct (first_keyword l2).
  - by destruct (first_keyword l1).
  - intros Hfirst. rewrite IH; [done|].
    destruct (first_keyword l1), (first_keyword l2); by simplify_eq/=.
Qed.

(** X12: what the canonical string does not show: two schemas with
    the same name, arguments that agree one by one in type and name and
    have their first keyword-only argument, if any, at the same
    position, and returns that agree one by one in type, have the same
    canonical string, whatever their overload names, variadic-return
    flags, return names, and the keyword-only flags of the arguments
    after the first keyword-only one are. *)
Theorem canonical_string_blind_spots (s1 s2 : FunctionSchema) :
  name s1 = name s2 ->
  Forall2 printed_alike (arguments s1) (arguments s2) ->
  first_keyword (arguments s1) = first_keyword (arguments s2) ->
  Forall2 (fun x y => type x = type y) (returns s1) (returns s2) ->
  canonicalSchemaString s1 = canonicalSchemaString s2.
Proof.
  intros Hname Hargs Hfirst Hret.
  rewrite !canonicalSchemaString_format. unfold canonical_format.
  rewrite Hname, (argument_entries_alike _ _ Hargs Hfirst).
  assert (Hr : returns_format (returns s1) = returns_format (returns s2)).
  { assert (Hmap : map (fun ret => str (type ret)) (returns s1) =
                   map (fun ret => str (type ret)) (returns s2)).
    { induction Hret as [|x y l1 l2 Ht _ IH]; [done|].
      cbn. by rewrite Ht, IH. }
    destruct Hret as [|x y l1 l2 Ht Hl]; [done|].
    destruct Hl as [|x' y' l1 l2 Ht' Hl]; cbn [returns_format].
    - by rewrite Ht.
    - by rewrite Hmap. }
  by rewrite Hr.
Qed.
End canonical_extras.

(** ** The further properties on concrete registries *)

Module MoreExamples.
Import Concrete MoreConcrete.

Lemma two_overloads_history : history two_overloads [first_ptr; second_ptr].
Proof.
  apply (history_register add_Scalar
           (final (registerOperator add_Tensor OperatorRegistry.empty))
           [first_ptr]); [|reflexivity].
  apply (history_register add_Tensor OperatorRegistry.empty []);
    [apply history_empty | reflexivity].
Qed.

Lemma one_overload_steps : rtc step one_overload two_overloads.
Proof. apply rtc_once, (step_register add_Scalar one_overload). Qed.

Lemma enumeration_example :
  history two_overloads [first_ptr; second_ptr] /\
  exists all, result (getAllOperators two_overloads) = inr all /\
              all ≡ₚ [first_ptr; second_ptr].
Proof.
  split; [exact two_overloads_history|].
  destruct (enumeration_lists_every_operator two_overloads
              [first_ptr; second_ptr] two_overloads_history)
    as (all & Hres & Hperm & _).
  exists all. split; [exact Hres | exact Hperm].
Defined.

Lemma literal_latest_example :
  let sig := literal_at 4096 aten_add_Tensor_literal in
  history two_overloads [first_ptr; second_ptr] /\
  OperatorRegistry.operators_by_sig_literal two_overloads !! address sig
    = None /\
  parseSchema (chars sig) = inr aten_add_Tensor /\
  result (getOperatorForLiteral sig two_overloads) = inr first_ptr.
Proof.
  intros sig. split; [exact two_overloads_history|].
  split; [reflexivity|]. split; [reflexivity|].
  rewrite (literal_lookup_returns_latest two_overloads
             [first_ptr; second_ptr] sig aten_add_Tensor
             two_overloads_history eq_refl eq_refl).
  reflexivity.
Defined.

Lemma registered_answers_example :
  history two_overloads [first_ptr; second_ptr] /\
  result (read read_all two_overloads)
    = inr (operators_answer [first_ptr; second_ptr]) /\
  second_ptr ∈ [first_ptr; second_ptr].
Proof.
  split; [exact two_overloads_history|]. split; [reflexivity|].
  apply (reads_return_registered_operators two_overloads
           [first_ptr; second_ptr] read_all
           (operators_answer [first_ptr; second_ptr])
           two_overloads_history eq_refl second_ptr).
  right. left.
Defined.

Lemma suggestions_example :
  history two_overloads [first_ptr; second_ptr] /\
  result (findSimilarOperators "aten::ad" two_overloads) = inr ["aten::add"] /\
  NoDup ["aten::add"].
Proof.
  split; [exact two_overloads_history|].
  assert (Hres : result (findSimilarOperators "aten::ad" two_overloads)
                 = inr ["aten::add"]) by (vm_compute; reflexivity).
  split; [exact Hres|].
  apply (suggestions_are_registered_symbols two_overloads
           [first_ptr; second_ptr] "aten::ad" ["aten::add"]
           two_overloads_history Hres).
Defined.

Lemma buckets_grow_example :
  rtc step one_overload two_overloads /\
  result (getAllOperatorsFor "aten::add" one_overload) = inr [first_ptr] /\
  exists more, result (getAllOperatorsFor "aten::add" two_overloads)
               = inr ([first_ptr] ++ more).
Proof.
  split; [exact one_overload_steps|]. split; [reflexivity|].
  apply (buckets_only_grow one_overload two_overloads "aten::add"
           [first_ptr] one_overload_steps eq_refl).
Defined.

Lemma stays_found_example :
  let full_name := {| c10.name := "aten::add"; c10.overload_name := "" |} in
  rtc step one_overload two_overloads /\
  result (findOperatorFor full_name one_overload) = inr (Some first_ptr) /\
  result (findOperatorFor full_name two_overloads) = inr (Some first_ptr).
Proof.
  intros full_name. split; [exact one_overload_steps|].
  split; [reflexivity|].
  apply (found_operator_stays_found one_overload two_overloads full_name
           first_ptr one_overload_steps eq_refl).
Defined.

Lemma earliest_example :
  let full_name :=
    {| c10.name := "aten::add"; c10.overload_name := "Scalar" |} in
  history two_overloads [first_ptr; second_ptr] /\
  result (findOperatorFor full_name two_overloads) = inr (Some second_ptr).
Proof.
  intros full_name. split; [exact two_overloads_history|].
  rewrite (find_operator_returns_earliest two_overloads
             [first_ptr; second_ptr] full_name two_overloads_history).
  reflexivity.
Defined.

Lemma registered_is_found_example :
  result (registerOperator add_Scalar one_overload) = inr tt /\
  result (findOperatorFor (full_name_of add_Scalar)
            (final (registerOperator add_Scalar one_overload)))
    = inr (Some second_ptr).
Proof.
  split; [reflexivity|].
  destruct (registered_operator_is_found add_Scalar one_overload eq_refl)
    as (_ & (found & Hbefore & Hafter) & _).
  vm_compute in Hbefore. injection Hbefore as <-. exact Hafter.
Defined.

Lemma never_refreshed_example :
  let sig := literal_at 4096 aten_add_Tensor_literal in
  let fresh := literal_at 8192 aten_add_Tensor_literal in
  let r1 := final (getOperatorForLiteral sig two_overloads) in
  let r2 := final (registerOperator add_Tensor r1) in
  history two_overloads [first_ptr; second_ptr] /\
  result (getOperatorForLiteral sig two_overloads) = inr first_ptr /\
  result (registerOperator add_Tensor r1) = inr tt /\
  result (getOperatorForLiteral sig r2) = inr first_ptr /\
  result (getOperatorForLiteral fresh r2) = inr third_ptr.
Proof.
  intros sig fresh r1 r2. split; [exact two_overloads_history|].
  split; [reflexivity|]. split; [reflexivity|].
  destruct (cached_literal_is_never_refreshed two_overloads
              [first_ptr; second_ptr] sig fresh aten_add_Tensor first_ptr
              add_Tensor two_overloads_history eq_refl eq_refl eq_refl
              eq_refl eq_refl) as (Hold & Hnew & _).
  split; [exact Hold | exact Hnew].
Defined.

Lemma not_cached_example :
  let sig := literal_at 4096 aten_add_Tensor_literal in
  let r1 := final (getOperatorForLiteral sig scalar_only) in
  result (getOperatorForLiteral sig scalar_only)
    = inl (OperatorRegistry.not_found_message sig) /\
  result (registerOperator add_Tensor r1) = inr tt /\
  result (getOperatorForLiteral sig (final (registerOperator add_Tensor r1)))
    = inr {| object_id := 1; get := add_Tensor |}.
Proof.
  intros sig r1. split; [reflexivity|]. split; [reflexivity|].
  destruct (failed_literal_lookup_is_not_cached scalar_only sig
              (OperatorRegistry.not_found_message sig) eq_refl)
    as (_ & _ & Hretry).
  apply (Hretry add_Tensor aten_add_Tensor eq_refl eq_refl eq_refl).
Defined.

Lemma error_precedence_example :
  is_varret (schema unlisted_op) = true /\
  result (registerOperator unlisted_op OperatorRegistry.empty)
    = inl (missing_printer_message unlisted_op).
Proof.
  split; [reflexivity|].
  destruct (registerOperator_error_precedence unlisted_op
              OperatorRegistry.empty eq_refl) as (Hprinter & _).
  apply Hprinter. vm_compute. reflexivity.
Defined.

Lemma blind_spots_example :
  name sum_keywords = name sum_mixed /\
  first_keyword (arguments sum_keywords) = first_keyword (arguments sum_mixed) /\
  canonicalSchemaString sum_keywords = canonicalSchemaString sum_mixed /\
  first_keyword (arguments aten_add_Tensor) = None /\
  canonicalSchemaString aten_add_Tensor = canonicalSchemaString aten_add_renamed.
Proof.
  split; [reflexivity|]. split; [reflexivity|]. split; [|split].
  - apply (canonical_string_blind_spots sum_keywords sum_mixed
             eq_refl); [|reflexivity|].
    + repeat (constructor; [split; reflexivity|]). constructor.
    + constructor; [reflexivity | constructor].
  - reflexivity.
  - apply (canonical_string_blind_spots aten_add_Tensor aten_add_renamed
             eq_refl); [|reflexivity|].
    + repeat (constructor; [split; reflexivity|]). constructor.
    + constructor; [reflexivity | constructor].
Defined.

Lemma find_operator_first_match_example :
  let full_name :=
    {| c10.name := "aten::add"; c10.overload_name := "Scalar" |} in
  history two_overloads [first_ptr; second_ptr] /\
  result (getAllOperatorsFor "aten::add" two_overloads)
    = inr [first_ptr; second_ptr] /\
  result (findOperatorFor full_name two_overloads) = inr (Some second_ptr) /\
  exists i, [first_ptr; second_ptr] !! i = Some second_ptr /\
    forall j op', j < i -> [first_ptr; second_ptr] !! j = Some op' ->
      overload_name (schema (get op')) <> "Scalar".
Proof.
  intros full_name. split; [exact two_overloads_history|].
  destruct (find_operator_first_match full_name two_overloads
              [first_ptr; second_ptr] two_overloads_history)
    as (Hbucket & found & Hfound & Hfirst).
  split; [exact Hbucket|]. split; [reflexivity|].
  assert (Hsome : found = Some second_ptr).
  { vm_compute in Hfound. injection Hfound as <-. reflexivity. }
  rewrite Hsome in Hfirst. destruct Hfirst as (i & Hi & _ & Hbefore).
  exists i. split; [exact Hi | exact Hbefore].
Defined.

(** C10, as it is worded, fails: the same schema is registered twice and,
    between the two registrations, a literal lookup caches the address of
    the signature.  After the next flush both operators are in the
    bucket and the index by signature holds the second, but the literal
    lookup through the cached address returns the first. *)
Lemma cached_address_returns_earlier :
  let sig := literal_at 4096 aten_add_Tensor_literal in
  let r1 := final (registerOperator add_Tensor OperatorRegistry.empty) in
  let r' := final (read (read_operator_for_literal sig) r1) in
  let r2 := final (registerOperator add_Tensor r') in
  let earlier := {| object_id := 0; get := add_Tensor |} in
  let later := {| object_id := 1; get := add_Tensor |} in
  result (registerOperator add_Tensor OperatorRegistry.empty) = inr tt /\
  rtc step r1 r' /\
  result (registerOperator add_Tensor r') = inr tt /\
  result (getAllOperatorsFor "aten::add" r2) = inr [earlier; later] /\
  OperatorRegistry.operators_by_sig (OperatorRegistry.flush r2)
    !! canonicalSchemaString aten_add_Tensor = Some later /\
  parseSchema (chars sig) = inr aten_add_Tensor /\
  result (getOperatorForLiteral sig r2) = inr earlier /\
  result (getOperatorForLiteral sig r2) <> inr later.
Proof.
  intros sig r1 r' r2 earlier later.
  split; [reflexivity|]. split; [apply rtc_once, step_read|].
  split; [reflexivity|]. split; [by vm_compute|]. split; [by vm_compute|].
  split; [reflexivity|]. split; [by vm_compute|].
  intros Heq. vm_compute in Heq. congruence.
Qed.
End MoreExamples.
